(** * Monte Carlo tree search of [src/tree_search.rs], shallow embedding.

    Modelling conventions.
    - [f64] values ([average_evaluation], the UCB score, the exploration and
      move-away constants) are modelled by real numbers [R]: the arithmetic is
      the ideal one, without rounding.  [std::f64::MAX] is the real number
      (2 - 2^-52) * 2^1023.
    - [u32] counters ([times_visited], tree size, loop count) are [nat]: the
      root is visited once per iteration and [loops] is a [u32], so no counter
      of the search wraps.
    - [i32] scores are [Z]; the cast [f64 as i32] truncates toward zero and
      saturates at the bounds of [i32].
    - Where a statement depends on the rounding of [f64] arithmetic, the
      rounding is explicit: [f64] below is binary64 with round-to-nearest,
      ties to even (finite values), and [move_away_value_rounded] takes the
      rounding as an argument.
    - The [HashSet<T>] of previous states is a [gset State].
    - [rand::thread_rng] is an explicit random stream [rand : nat -> nat]
      together with a position threaded through the search; the rollout
      collaborator receives the position too, so it may be randomised.  The
      rollout only gets [&HashSet<T>]: it cannot insert into the set. *)

From Stdlib Require Import Reals Lra Lia.
From stdpp Require Import base list gmap sets.

Open Scope R_scope.
#[local] Set Warnings "-register-all".

(** [std::f64::MAX] *)
Definition F64_MAX : R := (2 - / IZR (2 ^ 52)) * IZR (2 ^ 1023).

Definition I32_MIN : Z := (- 2 ^ 31)%Z.
Definition I32_MAX : Z := (2 ^ 31 - 1)%Z.

(** Truncation toward zero: [Int_part] is the floor. *)
Definition trunc (x : R) : Z :=
  if Rle_dec 0 x then Int_part x else (- Int_part (- x))%Z.

(** [x as i32] for a finite [f64] [x]. *)
Definition as_i32 (x : R) : Z := Z.max I32_MIN (Z.min I32_MAX (trunc x)).

(** ** Binary64 arithmetic

    A finite [f64] is [m * 2^e]; an operation rounds its exact result to the
    nearest binary64 value (53-bit significand, exponent down to -1074,
    ties to even).  Overflow to infinity is not modelled: the values below
    stay far from [std::f64::MAX]. *)

Section F64.
Local Open Scope Z_scope.

Record f64 : Type := F64 { f64_m : Z; f64_e : Z }.

(** [2^z] as a fraction [(numerator, denominator)]. *)
Definition pow2 (z : Z) : Z * Z := if Z.leb 0 z then (2 ^ z, 1) else (1, 2 ^ (- z)).

(** The binary64 value nearest to [n / d], for [d > 0]. *)
Definition round_q (n d : Z) : f64 :=
  if Z.eqb n 0 then F64 0 0 else
  let a := Z.abs n in
  let k0 := Z.log2 a - Z.log2 d in
  (* [k = floor (log2 (a / d))] *)
  let k := let '(p, q) := pow2 k0 in if Z.leb (d * p) (a * q) then k0 else k0 - 1 in
  let e := Z.max (-1074) (k - 52) in
  let '(p, q) := pow2 (- e) in
  let num := a * p in
  let den := d * q in
  let quo := num / den in
  let r := num mod den in
  let m := if Z.ltb den (2 * r) then quo + 1
           else if Z.ltb (2 * r) den then quo
           else if Z.even quo then quo else quo + 1 in
  F64 (Z.sgn n * m) e.

Definition round_dyadic (m e : Z) : f64 :=
  let '(p, q) := pow2 e in round_q (m * p) q.

Definition f64_add (x y : f64) : f64 :=
  let e := Z.min (f64_e x) (f64_e y) in
  round_dyadic (f64_m x * 2 ^ (f64_e x - e) + f64_m y * 2 ^ (f64_e y - e)) e.
Definition f64_neg (x : f64) : f64 := F64 (- f64_m x) (f64_e x).
Definition f64_sub (x y : f64) : f64 := f64_add x (f64_neg y).
Definition f64_div (x y : f64) : f64 :=
  let '(p, q) := pow2 (f64_e x - f64_e y) in
  round_q (Z.sgn (f64_m y) * f64_m x * p) (Z.abs (f64_m y) * q).
(** [z as f64], exact for an [i32] or a [u32]. *)
Definition f64_of_Z (z : Z) : f64 := round_q z 1.

End F64.

(** The real number an [f64] stands for. *)
Definition f64_real (x : f64) : R := IZR (f64_m x) * powerRZ 2 (f64_e x).

(** [update_average] in binary64: [times_visited += 1], then
    [average_evaluation += (value as f64 - average_evaluation) /
    times_visited as f64]. *)
Definition update_average_f64 (times_visited : nat) (average_evaluation : f64)
    (value : Z) : nat * f64 :=
  let t := S times_visited in
  (t, f64_add average_evaluation
        (f64_div (f64_sub (f64_of_Z value) average_evaluation) (f64_of_Z (Z.of_nat t)))).



(** [fn ucb(average_evaluation, uct_exploration, times_visited,
    total_times_visited) -> f64] *)
Definition ucb (average_evaluation uct_exploration : R)
    (times_visited total_times_visited : nat) : R :=
  if Nat.eqb times_visited 0 then F64_MAX
  else
    let log_term := ln (INR total_times_visited) in
    average_evaluation + uct_exploration * sqrt (log_term / INR times_visited).

Lemma F64_MAX_pos : 0 < F64_MAX.
Proof.
  unfold F64_MAX. apply Rmult_lt_0_compat; [|apply IZR_lt; reflexivity].
  assert (H1 : 1 <= IZR (2 ^ 52)) by (apply (IZR_le 1); discriminate).
  assert (H2 : / IZR (2 ^ 52) <= 1).
  { rewrite <- Rinv_1. apply Rinv_le_contravar; lra. }
  lra.
Qed.

Lemma F64_MAX_ge_1024 : 1024 <= F64_MAX.
Proof.
  unfold F64_MAX.
  assert (H1 : 1 <= IZR (2 ^ 52)) by (apply (IZR_le 1); discriminate).
  assert (H2 : / IZR (2 ^ 52) <= 1).
  { rewrite <- Rinv_1. apply Rinv_le_contravar; lra. }
  assert (H3 : 1024 <= IZR (2 ^ 1023)) by (apply (IZR_le 1024); discriminate).
  nra.
Qed.

(** [ln 3 >= 1], from [exp 1 <= 3]. *)
Lemma ln_3_ge_1 : 1 <= ln 3.
Proof.
  destruct (Rle_lt_or_eq_dec _ _ exp_le_3) as [Hlt|Heq].
  - rewrite <- (ln_exp 1) at 1. left. apply ln_increasing; [apply exp_pos|done].
  - rewrite <- Heq, ln_exp. lra.
Qed.

(** A visited child's UCB score can exceed [std::f64::MAX], the score of a
    never-visited child: average 1, one visit, parent visited 3 times,
    [uct_exploration = std::f64::MAX]. *)
Lemma ucb_above_f64_max : F64_MAX < ucb 1 F64_MAX 1 3.
Proof.
  unfold ucb. simpl Nat.eqb. cbv iota.
  replace (INR 3) with 3 by (simpl; lra).
  replace (INR 1) with 1 by reflexivity.
  rewrite Rdiv_1_r.
  assert (Hs : 1 <= sqrt (ln 3)).
  { rewrite <- sqrt_1. apply sqrt_le_1_alt, ln_3_ge_1. }
  pose proof F64_MAX_pos. nra.
Qed.




Lemma powerRZ_2_neg (p : positive) : powerRZ 2 (Z.neg p) = / IZR (2 ^ Z.pos p).
Proof.
  simpl powerRZ. f_equal. rewrite pow_IZR, positive_nat_Z. reflexivity.
Qed.

Lemma f64_real_neg (m : Z) (p : positive) :
  f64_real (F64 m (Z.neg p)) = IZR m / IZR (2 ^ Z.pos p).
Proof. unfold f64_real. cbn [f64_m f64_e]. rewrite powerRZ_2_neg. reflexivity. Qed.


Section TreeSearch.

Context {State : Type} `{Countable State}.

(** [T::get_possible_mutations()], computed once per search. *)
Variable mutations : list (State -> State).
(** [tree.evaluate]: the evaluator collaborator. *)
Variable evaluate : State -> Z.
(** [rollout(state, &mutations, tree, rollout_depth, rollout_epsilon,
    previous_states)], with the random position it draws from. *)
Variable rollout : nat -> State -> gset State -> Z.
(** The random stream behind [rand::thread_rng]. *)
Variable rand : nat -> nat.
Variable uct_exploration : R.
Variable move_away_constant : R.
Variable random_search : bool.

(** [struct TreeSearchNode]; the [mutations] reference is the same for every
    node and is the section variable [mutations]. *)
Inductive TreeSearchNode : Type := Node {
  times_visited : nat;
  average_evaluation : R;
  state : State;
  children : list TreeSearchNode
}.

(** [TreeSearchNode::new]: the node and the set after [insert(state)]. *)
Definition new_node (s : State) (previous_states : gset State)
    : TreeSearchNode * gset State :=
  (Node 0 0 s [], {[ s ]} ∪ previous_states).

(** [get_children_from_mutations]: [filter_map] over the mutations, in order,
    then [collect]. *)
Fixpoint get_children_from_mutations (s : State) (ms : list (State -> State))
    (previous_states : gset State) : list TreeSearchNode * gset State :=
  match ms with
  | [] => ([], previous_states)
  | mutation :: ms' =>
      let child_state := mutation s in
      if decide (child_state ∈ previous_states) then
        get_children_from_mutations s ms' previous_states
      else
        let ps1 := {[ child_state ]} ∪ previous_states in
        let '(child, ps2) := new_node child_state ps1 in
        let '(rest, ps3) := get_children_from_mutations s ms' ps2 in
        (child :: rest, ps3)
  end.

(** [TreeSearchNode::expand]: the updated node, the node to simulate (the
    node itself or [children[0]]), the set, and [no_non_explored_states]. *)
Definition expand (n : TreeSearchNode) (previous_states : gset State)
    : TreeSearchNode * TreeSearchNode * gset State * bool :=
  if Nat.eqb (times_visited n) 0 then (n, n, previous_states, false)
  else
    let '(chs, ps) :=
      get_children_from_mutations (state n) mutations previous_states in
    let n' := Node (times_visited n) (average_evaluation n) (state n) chs in
    match chs with
    | [] => (n', n', ps, true)
    | c0 :: _ => (n', c0, ps, false)
    end.

(** [TreeSearchNode::simulate] *)
Definition simulate (n : TreeSearchNode) (rng : nat)
    (previous_states : gset State) : Z :=
  rollout rng (state n) previous_states.

(** The loop of [best_ucb_score_index]: [index] is the position of the head
    of [cs] in [self.children]. *)
Fixpoint best_ucb_loop (total : nat) (cs : list TreeSearchNode) (index : nat)
    (best_ucb_score : R) (best_index : nat) : nat :=
  match cs with
  | [] => best_index
  | child :: cs' =>
      let child_ubc_score :=
        ucb (average_evaluation child) uct_exploration
            (times_visited child) total in
      if Rlt_dec best_ucb_score child_ubc_score then
        best_ucb_loop total cs' (S index) child_ubc_score index
      else best_ucb_loop total cs' (S index) best_ucb_score best_index
  end.

(** [TreeSearchNode::best_ucb_score_index]; [gen_range(0..len)] draws the
    next random number. *)
Definition best_ucb_score_index (n : TreeSearchNode) (rng : nat) : nat * nat :=
  if random_search then (rand rng mod length (children n), S rng)%nat
  else (best_ucb_loop (times_visited n) (children n) 0 0 0, rng).

(** [TreeSearchNode::update_average] *)
Definition update_average (n : TreeSearchNode) (value : Z) : TreeSearchNode :=
  let t := S (times_visited n) in
  Node t (average_evaluation n + (IZR value - average_evaluation n) / INR t)
    (state n) (children n).

(** The dead-end (move-away) value of [run]. *)
Definition move_away_value (average : R) : Z :=
  as_i32 (average - Rabs average * move_away_constant).


(** [TreeSearchNode::run]: the updated node, the set, the random position
    and the returned score.  The index chosen by [best_ucb_score_index] is in
    range; the [[]] case of [run_at] is never reached from [run]. *)
Fixpoint run (n : TreeSearchNode) (previous_states : gset State) (rng : nat)
    {struct n} : TreeSearchNode * gset State * nat * Z :=
  match n with
  | Node t a s [] =>
      let '(self', expanded, ps, no_non_explored_states) :=
        expand n previous_states in
      if no_non_explored_states then
        let value := move_away_value a in
        (update_average self' value, ps, rng, value)
      else
        let value := simulate expanded rng ps in
        (update_average self' value, ps, S rng, value)
  | Node t a s ch =>
      let '(best_index, rng1) := best_ucb_score_index n rng in
      let '(ch', ps, rng2, value) :=
        (fix run_at (l : list TreeSearchNode) (i : nat)
            (ps : gset State) (rng : nat)
            : list TreeSearchNode * gset State * nat * Z :=
           match l with
           | [] => ([], ps, rng, 0%Z)
           | c :: l' =>
               match i with
               | O =>
                   let '(c', ps', rng', value) := run c ps rng in
                   (c' :: l', ps', rng', value)
               | S i' =>
                   let '(l'', ps', rng', value) := run_at l' i' ps rng in
                   (c :: l'', ps', rng', value)
               end
           end) ch best_index previous_states rng1 in
      (update_average (Node t a s ch') value, ps, rng2, value)
  end.

(** [self.children[best_index].run(..)] inside [run]: runs the child at
    index [i] of [l] and puts the updated child back in place. *)
Definition run_at :=
  fix run_at (l : list TreeSearchNode) (i : nat)
      (ps : gset State) (rng : nat)
      : list TreeSearchNode * gset State * nat * Z :=
    match l with
    | [] => ([], ps, rng, 0%Z)
    | c :: l' =>
        match i with
        | O =>
            let '(c', ps', rng', value) := run c ps rng in
            (c' :: l', ps', rng', value)
        | S i' =>
            let '(l'', ps', rng', value) := run_at l' i' ps rng in
            (c :: l'', ps', rng', value)
        end
    end.

(** [TreeSearchNode::get_max_state] *)
Fixpoint get_max_state (n : TreeSearchNode) : State :=
  match n with
  | Node _ _ s ch =>
      fold_left (fun best_state child =>
        let child_max_state := get_max_state child in
        if Z.gtb (evaluate child_max_state) (evaluate best_state)
        then child_max_state else best_state) ch s
  end.

(** [TreeSearchNode::get_tree_size] *)
Fixpoint get_tree_size (n : TreeSearchNode) : nat :=
  match n with
  | Node _ _ _ ch => fold_left (fun size child => (size + get_tree_size child)%nat) ch 1%nat
  end.

(** The [for] loop of [search]: [loops] more iterations. *)
Fixpoint search_loop (loops : nat) (base_node : TreeSearchNode)
    (previous_states : gset State) (rng : nat)
    : TreeSearchNode * gset State * nat :=
  match loops with
  | O => (base_node, previous_states, rng)
  | S k =>
      let '(base_node', ps, rng', _) := run base_node previous_states rng in
      search_loop k base_node' ps rng'
  end.

(** The tree, the set and the random position at the end of [search]. *)
Definition search_tree (start_state : State) (loops : nat) (rng : nat)
    : TreeSearchNode * gset State * nat :=
  let '(base_node, previous_states) := new_node start_state ∅ in
  search_loop loops base_node previous_states rng.

(** [fn search]: the best state and the tree size. *)
Definition search (start_state : State) (loops : nat) (rng : nat) : State * nat :=
  let '(base_node, _, _) := search_tree start_state loops rng in
  (get_max_state base_node, get_tree_size base_node).

(** The states held by the nodes of a tree, root first. *)
Fixpoint tree_states (n : TreeSearchNode) : list State :=
  match n with
  | Node _ _ s ch => s :: flat_map tree_states ch
  end.

(** Every node of a tree satisfies [p]. *)
Fixpoint all_nodes (p : TreeSearchNode -> bool) (n : TreeSearchNode) : bool :=
  match n with
  | Node _ _ _ ch => p n && forallb (all_nodes p) ch
  end.

(** ** Induction on search trees *)

Section node_rect.
Variable P : TreeSearchNode -> Prop.
Hypothesis IH : forall t a s ch, Forall P ch -> P (Node t a s ch).
Fixpoint node_ind' (n : TreeSearchNode) : P n :=
  match n with
  | Node t a s ch =>
      IH t a s ch
        ((fix go (l : list TreeSearchNode) : Forall P l :=
            match l with
            | [] => @List.Forall_nil _ P
            | c :: l' => @List.Forall_cons _ P c l' (node_ind' c) (go l')
            end) ch)
  end.
End node_rect.

(** ** Equations of [run] *)

Lemma run_leaf t a s ps rng :
  run (Node t a s []) ps rng =
  let '(self', expanded, ps', no_non_explored_states) :=
    expand (Node t a s []) ps in
  if no_non_explored_states then
    (update_average self' (move_away_value a), ps', rng, move_away_value a)
  else
    (update_average self' (simulate expanded rng ps'), ps', S rng,
     simulate expanded rng ps').
Proof. reflexivity. Qed.

Lemma run_inner t a s ch ps rng :
  ch <> [] ->
  run (Node t a s ch) ps rng =
  let '(best_index, rng1) := best_ucb_score_index (Node t a s ch) rng in
  let '(ch', ps', rng2, value) := run_at ch best_index ps rng1 in
  (update_average (Node t a s ch') value, ps', rng2, value).
Proof. destruct ch as [|c ch]; [congruence|]. intros _. reflexivity. Qed.

(** ** The set of previous states *)

(** [new] is the list of states inserted in the set by a step, each of them
    absent from the set before. *)
Definition fresh_insertions (ps ps' : gset State) (new : list State) : Prop :=
  NoDup new /\ Forall (fun x => x ∉ ps) new /\
  (forall x, x ∈ ps' <-> x ∈ ps \/ x ∈ new).

Lemma fresh_insertions_nil ps : fresh_insertions ps ps [].
Proof.
  split; [constructor|split; [constructor|]].
  intros x. rewrite elem_of_nil. tauto.
Qed.

Lemma fresh_insertions_app ps1 ps2 ps3 new1 new2 :
  fresh_insertions ps1 ps2 new1 -> fresh_insertions ps2 ps3 new2 ->
  fresh_insertions ps1 ps3 (new1 ++ new2).
Proof.
  intros (Hn1 & Hf1 & Hs1) (Hn2 & Hf2 & Hs2).
  rewrite Forall_forall in Hf1, Hf2.
  split; [|split].
  - apply NoDup_app. split; [done|split; [|done]].
    intros x Hx1 Hx2. apply (Hf2 x Hx2). apply Hs1. by right.
  - rewrite Forall_forall. intros x Hx. apply elem_of_app in Hx as [Hx|Hx].
    + by apply Hf1.
    + intros Hp. apply (Hf2 x Hx). apply Hs1. by left.
  - intros x. rewrite Hs2, Hs1, elem_of_app. tauto.
Qed.

Lemma get_children_from_mutations_fresh s ms ps :
  let '(chs, ps') := get_children_from_mutations s ms ps in
  Forall (fun c => times_visited c = 0%nat /\ average_evaluation c = 0 /\
                   children c = []) chs /\
  fresh_insertions ps ps' (map state chs).
Proof.
  revert ps. induction ms as [|m ms IHms]; intros ps; simpl.
  - split; [constructor|apply fresh_insertions_nil].
  - destruct (decide (m s ∈ ps)) as [Hin|Hnin].
    + apply IHms.
    + specialize (IHms ({[m s]} ∪ ({[m s]} ∪ ps))).
      destruct (get_children_from_mutations s ms ({[m s]} ∪ ({[m s]} ∪ ps)))
        as [rest ps3] eqn:E.
      destruct IHms as [Hleaf Hfresh].
      split; [constructor; [done|exact Hleaf]|].
      change (map state (Node 0 0 (m s) [] :: rest)) with ([m s] ++ map state rest).
      eapply fresh_insertions_app; [|exact Hfresh].
      split; [apply NoDup_singleton|split].
      * by constructor.
      * intros x. rewrite list_elem_of_singleton. set_solver.
Qed.

Lemma flat_map_tree_states_leaves (chs : list TreeSearchNode) :
  Forall (fun c => children c = []) chs ->
  flat_map tree_states chs = map state chs.
Proof.
  induction 1 as [|[t a s ch] chs Hc _ IH]; simpl in *; [done|].
  subst ch. simpl. by rewrite IH.
Qed.

(** What one [run] does to the states of a tree and to the set. *)
Definition run_fresh_prop (n : TreeSearchNode) : Prop :=
  forall ps rng,
    let '(n', ps', _, _) := run n ps rng in
    exists new, fresh_insertions ps ps' new /\
                tree_states n' ≡ₚ tree_states n ++ new.

Lemma run_at_fresh (l : list TreeSearchNode) :
  Forall run_fresh_prop l ->
  forall i ps rng,
    let '(l', ps', _, _) := run_at l i ps rng in
    exists new, fresh_insertions ps ps' new /\
                flat_map tree_states l' ≡ₚ flat_map tree_states l ++ new.
Proof.
  induction 1 as [|c l Hc Hl IH]; intros i ps rng; simpl.
  - exists []. split; [apply fresh_insertions_nil|]. done.
  - destruct i as [|i].
    + specialize (Hc ps rng).
      destruct (run c ps rng) as [[[c' ps'] rng'] v].
      destruct Hc as (new & Hfresh & Hperm). exists new. split; [done|].
      simpl. rewrite Hperm, <-!app_assoc.
      apply Permutation_app_head, Permutation_app_comm.
    + specialize (IH i ps rng).
      destruct (run_at l i ps rng) as [[[l'' ps'] rng'] v].
      destruct IH as (new & Hfresh & Hperm). exists new. split; [done|].
      simpl. rewrite Hperm, app_assoc. done.
Qed.

Lemma run_fresh (n : TreeSearchNode) : run_fresh_prop n.
Proof.
  induction n as [t a s ch IHch] using node_ind'. intros ps rng.
  destruct ch as [|c ch].
  - rewrite run_leaf. unfold expand. simpl.
    destruct (Nat.eqb t 0).
    + exists []. split; [apply fresh_insertions_nil|]. done.
    + pose proof (get_children_from_mutations_fresh s mutations ps) as Hg.
      destruct (get_children_from_mutations s mutations ps) as [chs ps'].
      destruct Hg as [Hleaf Hfresh].
      assert (Hst : flat_map tree_states chs = map state chs).
      { apply flat_map_tree_states_leaves.
        eapply Forall_impl; [exact Hleaf|]. intros x (_ & _ & Hx). exact Hx. }
      destruct chs as [|c0 chs0]; simpl.
      * exists []. split; [done|]. done.
      * exists (map state (c0 :: chs0)). split; [done|].
        change (s :: flat_map tree_states (c0 :: chs0) ≡ₚ
                [s] ++ map state (c0 :: chs0)).
        by rewrite Hst.
  - rewrite run_inner by done.
    destruct (best_ucb_score_index (Node t a s (c :: ch)) rng) as [bi rng1].
    pose proof (run_at_fresh (c :: ch) IHch bi ps rng1) as Hat.
    destruct (run_at (c :: ch) bi ps rng1) as [[[ch' ps'] rng2] v].
    destruct Hat as (new & Hfresh & Hperm). exists new. split; [done|].
    simpl. by rewrite Hperm.
Qed.

(** The deduplication invariant: the states of the tree are pairwise
    distinct and all in the set. *)
Definition dedup_inv (n : TreeSearchNode) (ps : gset State) : Prop :=
  NoDup (tree_states n) /\ (forall x, x ∈ tree_states n -> x ∈ ps).

Lemma run_dedup_inv n ps rng :
  dedup_inv n ps ->
  let '(n', ps', _, _) := run n ps rng in dedup_inv n' ps'.
Proof.
  intros [Hnd Hin]. pose proof (run_fresh n ps rng) as Hr.
  destruct (run n ps rng) as [[[n' ps'] rng'] v].
  destruct Hr as (new & (Hnew & Hf & Hs) & Hperm).
  rewrite Forall_forall in Hf. split.
  - rewrite Hperm. apply NoDup_app. split; [done|split; [|done]].
    intros x Hx Hx'. exact (Hf x Hx' (Hin x Hx)).
  - intros x Hx. rewrite Hperm, elem_of_app in Hx. apply Hs.
    destruct Hx as [Hx|Hx]; [left; by apply Hin|by right].
Qed.

Lemma search_loop_dedup_inv k n ps rng :
  dedup_inv n ps ->
  let '(n', ps', _) := search_loop k n ps rng in dedup_inv n' ps'.
Proof.
  revert n ps rng. induction k as [|k IHk]; intros n ps rng Hinv; simpl; [done|].
  pose proof (run_dedup_inv n ps rng Hinv) as Hr.
  destruct (run n ps rng) as [[[n' ps'] rng'] v]. by apply IHk.
Qed.

(** ** Visit counts of expanded nodes *)

(** A node with children has been visited at least twice. *)
Definition visited_twice_if_expanded (n : TreeSearchNode) : bool :=
  match children n with
  | [] => true
  | _ :: _ => Nat.leb 2 (times_visited n)
  end.

Definition visits_prop (n : TreeSearchNode) : Prop :=
  forall ps rng,
    all_nodes visited_twice_if_expanded n = true ->
    let '(n', _, _, _) := run n ps rng in
    all_nodes visited_twice_if_expanded n' = true.

Lemma run_at_visits (l : list TreeSearchNode) :
  Forall visits_prop l ->
  forall i ps rng,
    forallb (all_nodes visited_twice_if_expanded) l = true ->
    let '(l', _, _, _) := run_at l i ps rng in
    forallb (all_nodes visited_twice_if_expanded) l' = true.
Proof.
  induction 1 as [|c l Hc Hl IH]; intros i ps rng Hok; simpl in *; [done|].
  apply andb_true_iff in Hok as [Hokc Hokl].
  destruct i as [|i].
  - specialize (Hc ps rng Hokc).
    destruct (run c ps rng) as [[[c' ps'] rng'] v]. simpl. by rewrite Hc, Hokl.
  - specialize (IH i ps rng Hokl).
    destruct (run_at l i ps rng) as [[[l'' ps'] rng'] v]. simpl. by rewrite Hokc, IH.
Qed.

Lemma run_visits (n : TreeSearchNode) : visits_prop n.
Proof.
  induction n as [t a s ch IHch] using node_ind'. intros ps rng Hok.
  destruct ch as [|c ch].
  - rewrite run_leaf. unfold expand. simpl.
    destruct (Nat.eqb t 0) eqn:Et; [done|].
    pose proof (get_children_from_mutations_fresh s mutations ps) as Hg.
    destruct (get_children_from_mutations s mutations ps) as [chs ps'].
    destruct Hg as [Hleaf _].
    assert (Hl : forallb (all_nodes visited_twice_if_expanded) chs = true).
    { clear -Hleaf. induction Hleaf as [|[t' a' s' ch'] chs (_ & _ & Hc) _ IH];
        [done|]. simpl in *. subst ch'. exact IH. }
    apply Nat.eqb_neq in Et.
    destruct chs as [|c0 chs0]; [done|].
    change (visited_twice_if_expanded
              (Node (S t) (a + (IZR (simulate c0 rng ps') - a) / INR (S t)) s
                 (c0 :: chs0))
            && forallb (all_nodes visited_twice_if_expanded) (c0 :: chs0) = true).
    rewrite Hl. unfold visited_twice_if_expanded. simpl.
    destruct t as [|t]; [done|]. done.
  - rewrite run_inner by done.
    change (visited_twice_if_expanded (Node t a s (c :: ch))
            && forallb (all_nodes visited_twice_if_expanded) (c :: ch) = true) in Hok.
    apply andb_true_iff in Hok as [Hroot Hch].
    change (Nat.leb 2 t = true) in Hroot. apply Nat.leb_le in Hroot.
    destruct (best_ucb_score_index (Node t a s (c :: ch)) rng) as [bi rng1].
    pose proof (run_at_visits (c :: ch) IHch bi ps rng1 Hch) as Hat.
    destruct (run_at (c :: ch) bi ps rng1) as [[[ch' ps'] rng2] v].
    change (visited_twice_if_expanded
              (Node (S t) (a + (IZR v - a) / INR (S t)) s ch')
            && forallb (all_nodes visited_twice_if_expanded) ch' = true).
    rewrite Hat, andb_true_r. unfold visited_twice_if_expanded. simpl.
    destruct ch'; [done|]. destruct t as [|t]; [lia|done].
Qed.

Lemma search_loop_visits k n ps rng :
  all_nodes visited_twice_if_expanded n = true ->
  let '(n', _, _) := search_loop k n ps rng in
  all_nodes visited_twice_if_expanded n' = true.
Proof.
  revert n ps rng. induction k as [|k IHk]; intros n ps rng Hok; simpl; [done|].
  pose proof (run_visits n ps rng Hok) as Hr.
  destruct (run n ps rng) as [[[n' ps'] rng'] v]. by apply IHk.
Qed.

(** ** Dead ends *)

(** [run] takes the dead-end branch: no children yet and [expand] reports
    [no_non_explored_states]. *)
Definition takes_dead_end (n : TreeSearchNode) (ps : gset State) : bool :=
  match children n with
  | [] => let '(_, _, _, no_non_explored_states) := expand n ps in
          no_non_explored_states
  | _ :: _ => false
  end.

Lemma get_children_from_mutations_nil s ms ps :
  Forall (fun m => m s ∈ ps) ms ->
  get_children_from_mutations s ms ps = ([], ps).
Proof.
  induction 1 as [|m ms Hm _ IH]; simpl; [done|].
  by rewrite decide_True.
Qed.

Lemma get_children_from_mutations_nil_inv s ms ps :
  fst (get_children_from_mutations s ms ps) = [] ->
  Forall (fun m => m s ∈ ps) ms /\ snd (get_children_from_mutations s ms ps) = ps.
Proof.
  induction ms as [|m ms IH]; simpl; [done|].
  destruct (decide (m s ∈ ps)) as [Hin|Hnin].
  - intros Hnil. destruct (IH Hnil). split; [by constructor|done].
  - destruct (get_children_from_mutations s ms ({[m s]} ∪ ({[m s]} ∪ ps))) as [rest ps3].
    simpl. congruence.
Qed.

Lemma takes_dead_end_iff n ps :
  takes_dead_end n ps = true <->
  children n = [] /\ times_visited n <> 0%nat /\
  Forall (fun m => m (state n) ∈ ps) mutations.
Proof.
  destruct n as [t a s ch]. unfold takes_dead_end, expand. simpl.
  destruct ch as [|c ch]; [|split; [done|intros (? & _); done]].
  destruct (Nat.eqb t 0) eqn:Et.
  - apply Nat.eqb_eq in Et. split; [done|intros (_ & ? & _); done].
  - apply Nat.eqb_neq in Et. split.
    + intros Hd. split; [done|split; [done|]].
      apply (get_children_from_mutations_nil_inv s mutations ps).
      destruct (get_children_from_mutations s mutations ps) as [[|c0 chs] ps']; done.
    + intros (_ & _ & Hall). by rewrite get_children_from_mutations_nil.
Qed.

(** The run of a node on the dead-end branch. *)
Lemma run_dead_end_eq n ps rng :
  takes_dead_end n ps = true ->
  run n ps rng =
  (update_average n (move_away_value (average_evaluation n)), ps, rng,
   move_away_value (average_evaluation n)).
Proof.
  intros Hd. pose proof Hd as Hd'. apply takes_dead_end_iff in Hd' as (Hch & Ht & Hall).
  destruct n as [t a s ch]. simpl in Hch, Ht, Hall. subst ch.
  rewrite run_leaf. unfold expand. simpl.
  apply Nat.eqb_neq in Ht. rewrite Ht.
  rewrite get_children_from_mutations_nil by done. reflexivity.
Qed.

Lemma run_previous_states_mono n ps rng :
  let '(_, ps', _, _) := run n ps rng in ps ⊆ ps'.
Proof.
  pose proof (run_fresh n ps rng) as Hr.
  destruct (run n ps rng) as [[[n' ps'] rng'] v].
  destruct Hr as (new & (_ & _ & Hs) & _). intros x Hx. apply Hs. by left.
Qed.

(** ** Running averages *)

Lemma update_average_fold (vs : list Z) (n : TreeSearchNode) :
  let m := fold_left update_average vs n in
  times_visited m = (times_visited n + length vs)%nat /\
  average_evaluation m * INR (times_visited m) =
  average_evaluation n * INR (times_visited n) + IZR (fold_right Z.add 0%Z vs) /\
  state m = state n /\ children m = children n.
Proof.
  revert n. induction vs as [|v vs IH]; intros n; simpl.
  - rewrite Nat.add_0_r. repeat split; try done. simpl. lra.
  - destruct (IH (update_average n v)) as (Ht & Ha & Hs & Hc).
    simpl in Ht, Hs, Hc. rewrite Ht in *. split; [lia|split; [|done]].
    rewrite Ha. unfold update_average. cbn [average_evaluation times_visited].
    rewrite plus_IZR, S_INR.
    assert (Hpos : 0 < INR (times_visited n) + 1)
      by (pose proof (pos_INR (times_visited n)); lra).
    field. lra.
Qed.

(** ** Selection *)

(** The UCB score of a child under a parent visited [total] times. *)
Definition ucb_score (total : nat) (c : TreeSearchNode) : R :=
  ucb (average_evaluation c) uct_exploration (times_visited c) total.

Lemma best_ucb_loop_spec total (cs : list TreeSearchNode) :
  forall index best_ucb_score best_index,
    let r := best_ucb_loop total cs index best_ucb_score best_index in
    (r = best_index /\ Forall (fun c => ucb_score total c <= best_ucb_score) cs) \/
    (exists j c, cs !! j = Some c /\ r = (index + j)%nat /\
       best_ucb_score < ucb_score total c /\
       (forall j' c', cs !! j' = Some c' -> ucb_score total c' <= ucb_score total c) /\
       (forall j' c', (j' < j)%nat -> cs !! j' = Some c' ->
                      ucb_score total c' < ucb_score total c)).
Proof.
  induction cs as [|c cs IH]; intros k b bi; simpl.
  - left. split; [done|constructor].
  - fold (ucb_score total c).
    destruct (Rlt_dec b (ucb_score total c)) as [Hlt|Hge].
    + right.
      destruct (IH (S k) (ucb_score total c) k)
        as [[Hr Hall]|(j & c' & Hj & Hr & Hlt' & Hmax & Hfirst)].
      * exists 0%nat, c. split; [done|]. split; [rewrite Hr; lia|].
        split; [done|]. split.
        -- intros [|j'] c' Hj'; simpl in Hj'.
           ++ injection Hj' as <-. lra.
           ++ exact (Forall_lookup_1 _ _ _ _ Hall Hj').
        -- intros j' c' Hj'. lia.
      * exists (S j), c'. split; [done|]. split; [rewrite Hr; lia|].
        split; [lra|]. split.
        -- intros [|j'] c'' Hj'; simpl in Hj'.
           ++ injection Hj' as <-. lra.
           ++ exact (Hmax _ _ Hj').
        -- intros [|j'] c'' Hlt'' Hj'; simpl in Hj'.
           ++ injection Hj' as <-. lra.
           ++ apply (Hfirst j'); [lia|done].
    + apply Rnot_lt_le in Hge.
      destruct (IH (S k) b bi)
        as [[Hr Hall]|(j & c' & Hj & Hr & Hlt' & Hmax & Hfirst)].
      * left. split; [done|]. by constructor.
      * right. exists (S j), c'. split; [done|]. split; [rewrite Hr; lia|].
        split; [done|]. split.
        -- intros [|j'] c'' Hj'; simpl in Hj'.
           ++ injection Hj' as <-. lra.
           ++ exact (Hmax _ _ Hj').
        -- intros [|j'] c'' Hlt'' Hj'; simpl in Hj'.
           ++ injection Hj' as <-. lra.
           ++ apply (Hfirst j'); [lia|done].
Qed.

(** The non-random selection: the index of the first child with the greatest
    score, provided that score is positive; index 0 otherwise. *)
Lemma best_ucb_score_index_spec n rng :
  random_search = false -> children n <> [] ->
  let i := fst (best_ucb_score_index n rng) in
  snd (best_ucb_score_index n rng) = rng /\
  (i < length (children n))%nat /\
  ((i = 0%nat /\ Forall (fun c => ucb_score (times_visited n) c <= 0) (children n)) \/
   (exists c, children n !! i = Some c /\ 0 < ucb_score (times_visited n) c /\
      (forall j c', children n !! j = Some c' ->
         ucb_score (times_visited n) c' <= ucb_score (times_visited n) c) /\
      (forall j c', (j < i)%nat -> children n !! j = Some c' ->
         ucb_score (times_visited n) c' < ucb_score (times_visited n) c))).
Proof.
  intros Hrs Hne. unfold best_ucb_score_index. rewrite Hrs. simpl.
  split; [done|].
  destruct (best_ucb_loop_spec (times_visited n) (children n) 0 0 0)
    as [[Hr Hall]|(j & c & Hj & Hr & Hpos & Hmax & Hfirst)].
  - rewrite Hr. split.
    + destruct (children n); [done|]. simpl. lia.
    + left. by split.
  - rewrite Hr. simpl. split; [by apply lookup_lt_Some in Hj|].
    right. exists c. by repeat split.
Qed.

Lemma ucb_score_unvisited total c :
  times_visited c = 0%nat -> ucb_score total c = F64_MAX.
Proof. intros Ht. unfold ucb_score, ucb. by rewrite Ht. Qed.

(** ** Move-away value *)

Lemma trunc_le_0 (x : R) : x < 0 -> (trunc x <= 0)%Z.
Proof.
  intros Hx. unfold trunc. destruct (Rle_dec 0 x); [lra|].
  destruct (base_Int_part (- x)) as [_ H2].
  assert (Hge : (0 <= Int_part (- x))%Z).
  { apply Z.lt_succ_r. apply lt_IZR. rewrite succ_IZR. lra. }
  lia.
Qed.

Lemma trunc_lt (x a : R) : x < a -> 0 < a -> IZR (trunc x) < a.
Proof.
  intros Hxa Ha. unfold trunc. destruct (Rle_dec 0 x) as [Hx|Hx].
  - destruct (base_Int_part x) as [H1 _]. lra.
  - assert (H0 : (trunc x <= 0)%Z) by (apply trunc_le_0; lra).
    unfold trunc in H0. destruct (Rle_dec 0 x); [lra|].
    apply IZR_le in H0. lra.
Qed.



(** ** Claims *)

(** C1 (global deduplication).  After any number of iterations of [search],
    the states of the nodes of the tree are pairwise distinct and all in the
    set of previous states (the root's state is inserted when the root is
    created); [get_children_from_mutations] creates a child only for a state
    absent from the set, and the set afterwards is the old set plus exactly
    the states of the created children. *)
Theorem search_tree_states_distinct :
  (forall start_state loops rng,
     let '(base_node, previous_states, _) := search_tree start_state loops rng in
     NoDup (tree_states base_node) /\
     (forall x, x ∈ tree_states base_node -> x ∈ previous_states)) /\
  (forall s previous_states,
     let '(chs, ps') := get_children_from_mutations s mutations previous_states in
     Forall (fun c => state c ∉ previous_states) chs /\
     NoDup (map state chs) /\
     (forall x, x ∈ ps' <-> x ∈ previous_states \/ x ∈ map state chs)).
Proof.
  split.
  - intros start_state loops rng. unfold search_tree, new_node.
    apply search_loop_dedup_inv. split; [apply NoDup_singleton|].
    intros x Hx. simpl in Hx. set_solver.
  - intros s ps. pose proof (get_children_from_mutations_fresh s mutations ps) as Hg.
    destruct (get_children_from_mutations s mutations ps) as [chs ps'].
    destruct Hg as (_ & Hnd & Hf & Hs). split; [|done].
    clear -Hf. induction chs as [|c chs IH]; [constructor|].
    inversion Hf; subst. constructor; auto.
Qed.

(** C4 (dead-end policy value).  When [run] reaches a childless node whose
    expansion finds no unexplored successor, it returns
    [penalized = (average_evaluation - |average_evaluation| *
    move_away_constant) as i32], increments the node's visit count once,
    updates its running average once with [penalized], leaves it without
    children, does not recurse nor call the rollout (the set and the random
    position are unchanged). *)
Theorem dead_end_policy_value n previous_states rng :
  takes_dead_end n previous_states = true ->
  let a := average_evaluation n in
  let penalized := as_i32 (a - Rabs a * move_away_constant) in
  run n previous_states rng =
  (Node (S (times_visited n)) (a + (IZR penalized - a) / INR (S (times_visited n)))
     (state n) [],
   previous_states, rng, penalized).
Proof.
  intros Hd. pose proof Hd as Hd'. apply takes_dead_end_iff in Hd' as (Hch & _ & _).
  rewrite run_dead_end_eq by done.
  destruct n as [t a s ch]. simpl in Hch. subst ch. reflexivity.
Qed.

(** C6 (backpropagation), as amended.  Every [run] on a node returns one
    score [v] and applies [update_average] once with it: the node gets
    [times_visited + 1] visits and the average
    [average + (v - average) / (times_visited + 1)] (one [f64] update, which
    the code rounds), and keeps its state.  After a sequence of such updates a
    node's visit count has grown by the number of values, its state and
    children unchanged.  The average is this running [f64] update; it is not
    the arithmetic mean of the values in general. *)
Theorem run_backpropagation :
  (forall n previous_states rng,
     let '(n', _, _, value) := run n previous_states rng in
     times_visited n' = S (times_visited n) /\
     average_evaluation n' =
       average_evaluation n +
       (IZR value - average_evaluation n) / INR (S (times_visited n)) /\
     state n' = state n) /\
  (forall n (values : list Z),
     let m := fold_left update_average values n in
     times_visited m = (times_visited n + length values)%nat /\
     state m = state n /\ children m = children n).
Proof.
  split.
  - intros [t a s ch] ps rng. destruct ch as [|c ch].
    + rewrite run_leaf. unfold expand. simpl.
      destruct (Nat.eqb t 0); [done|].
      destruct (get_children_from_mutations s mutations ps) as [[|c0 chs] ps']; done.
    + rewrite run_inner by done.
      destruct (best_ucb_score_index (Node t a s (c :: ch)) rng) as [bi rng1].
      destruct (run_at (c :: ch) bi ps rng1) as [[[ch' ps'] rng2] v]. done.
  - intros n values.
    destruct (update_average_fold values n) as (Ht & _ & Hs & Hc). done.
Qed.


(** C7 (deferred first-visit expansion).  On a childless node: if it was
    never visited, [expand] changes nothing and returns the node itself, and
    [run] simulates the node's own state; otherwise, when some successor
    survives deduplication, [expand] stores all the children built by
    [get_children_from_mutations] (in the order of the mutations) and
    returns the first one, and [run] simulates only that child: the children
    are stored as they were built, none of them updated. *)
Theorem expand_deferred n previous_states rng :
  children n = [] ->
  (times_visited n = 0%nat ->
     expand n previous_states = (n, n, previous_states, false) /\
     run n previous_states rng =
       (update_average n (rollout rng (state n) previous_states),
        previous_states, S rng, rollout rng (state n) previous_states)) /\
  (forall c0 rest ps',
     times_visited n <> 0%nat ->
     get_children_from_mutations (state n) mutations previous_states =
       (c0 :: rest, ps') ->
     let n' := Node (times_visited n) (average_evaluation n) (state n)
                 (c0 :: rest) in
     expand n previous_states = (n', c0, ps', false) /\
     run n previous_states rng =
       (update_average n' (rollout rng (state c0) ps'), ps', S rng,
        rollout rng (state c0) ps')).
Proof.
  destruct n as [t a s ch].
  cbn [children times_visited state average_evaluation]. intros Hch. subst ch.
  split.
  - intros Ht. subst t. split; reflexivity.
  - intros c0 rest ps' Ht Hg. apply Nat.eqb_neq in Ht. split.
    + unfold expand. cbn [children times_visited state average_evaluation].
      rewrite Ht, Hg. reflexivity.
    + rewrite run_leaf. unfold expand.
      cbn [children times_visited state average_evaluation].
      rewrite Ht, Hg. reflexivity.
Qed.

(** C8 (zero-iteration search).  [search] with [loops = 0] returns the start
    state and a tree size of 1. *)
Theorem search_zero_loops start_state rng :
  search start_state 0 rng = (start_state, 1%nat).
Proof. reflexivity. Qed.

(** C9 (UCB logarithm well-definedness).  After any number of iterations of
    [search], every node that has children has been visited at least twice,
    so [best_ucb_score_index] on it calls [ucb] with [total_times_visited >=
    2]: [ln] is only taken (for a child with [times_visited >= 1]) at a visit
    count of at least 2. *)
Theorem search_expanded_nodes_visited_twice start_state loops rng :
  let '(base_node, _, _) := search_tree start_state loops rng in
  all_nodes (fun m => match children m with
                      | [] => true
                      | _ :: _ => Nat.leb 2 (times_visited m)
                      end) base_node = true.
Proof.
  unfold search_tree, new_node.
  apply (search_loop_visits loops (Node 0 0 start_state [])). reflexivity.
Qed.

(** C10 (dead-end persistence).  [run] never removes a state from the set;
    and when [run] takes the dead-end branch on a node, the node is left
    without children, the set is unchanged, and for every later set (a
    superset) the next [run] on that node takes the dead-end branch again. *)
Theorem dead_end_persists :
  (forall m previous_states rng,
     let '(_, ps', _, _) := run m previous_states rng in previous_states ⊆ ps') /\
  (forall n previous_states rng,
     takes_dead_end n previous_states = true ->
     let '(n', ps', _, _) := run n previous_states rng in
     children n' = [] /\ ps' = previous_states /\
     forall ps'', ps' ⊆ ps'' -> takes_dead_end n' ps'' = true).
Proof.
  split; [apply run_previous_states_mono|].
  intros n ps rng Hd. rewrite run_dead_end_eq by done.
  apply takes_dead_end_iff in Hd as (Hch & Ht & Hall).
  split; [done|split; [done|]].
  intros ps'' Hsub. apply takes_dead_end_iff.
  destruct n as [t a s ch]. simpl in *. split; [done|split; [done|]].
  eapply Forall_impl; [exact Hall|]. intros m Hm. by apply Hsub.
Qed.

(** C2 (non-random selection rule), as amended: a never-visited child
    scores [std::f64::MAX], the largest finite double, not +infinity.  On a
    node with children, [best_ucb_score_index] with [random_search = false]
    draws no random number and returns an index of [children]: index 0 when
    every score is <= 0, otherwise the first index of the greatest score
    (which is positive); every earlier child scores strictly less. *)
Theorem best_ucb_score_index_first_greatest n rng :
  random_search = false -> children n <> [] ->
  let i := fst (best_ucb_score_index n rng) in
  snd (best_ucb_score_index n rng) = rng /\
  (i < length (children n))%nat /\
  ((i = 0%nat /\ Forall (fun c => ucb_score (times_visited n) c <= 0) (children n)) \/
   (exists c, children n !! i = Some c /\ 0 < ucb_score (times_visited n) c /\
      (forall j c', children n !! j = Some c' ->
         ucb_score (times_visited n) c' <= ucb_score (times_visited n) c) /\
      (forall j c', (j < i)%nat -> children n !! j = Some c' ->
         ucb_score (times_visited n) c' < ucb_score (times_visited n) c))).
Proof. apply best_ucb_score_index_spec. Qed.

(** C3 (unvisited-first selection), as amended: on a node with a
    never-visited child, when every visited child's UCB score stays below
    [std::f64::MAX] (the score of a never-visited child), the non-random
    selection returns the first never-visited child. *)
Theorem best_ucb_score_index_unvisited_first n rng :
  random_search = false ->
  (exists j c, children n !! j = Some c /\ times_visited c = 0%nat) ->
  (forall c, c ∈ children n -> times_visited c <> 0%nat ->
     ucb_score (times_visited n) c < F64_MAX) ->
  exists c, children n !! fst (best_ucb_score_index n rng) = Some c /\
    times_visited c = 0%nat /\
    forall j c', (j < fst (best_ucb_score_index n rng))%nat ->
      children n !! j = Some c' -> times_visited c' <> 0%nat.
Proof.
  intros Hrs (j0 & c0 & Hj0 & Ht0) Hbound.
  assert (Hne : children n <> []) by (intros E; rewrite E in Hj0; done).
  pose proof F64_MAX_pos as Hmax_pos.
  pose proof (ucb_score_unvisited (times_visited n) c0 Ht0) as Hs0.
  destruct (best_ucb_score_index_spec n rng Hrs Hne)
    as (_ & _ & [[_ Hall]|(c & Hc & _ & Hmax & Hfirst)]).
  - pose proof (Forall_lookup_1 _ _ _ _ Hall Hj0) as H0. simpl in H0. lra.
  - exists c. split; [done|].
    pose proof (Hmax _ _ Hj0) as Hge.
    assert (Htc : times_visited c = 0%nat).
    { destruct (Nat.eq_dec (times_visited c) 0%nat) as [|Hnz]; [done|].
      pose proof (Hbound c (list_elem_of_lookup_2 _ _ _ Hc) Hnz). lra. }
    split; [done|].
    intros j c' Hlt Hj Ht'.
    pose proof (Hfirst j c' Hlt Hj) as Hlt'.
    rewrite (ucb_score_unvisited _ c' Ht'), (ucb_score_unvisited _ c Htc) in Hlt'.
    lra.
Qed.



(** ** Further properties of the search *)

(** [run] adds one visit to the node it is called on and keeps its state. *)
Lemma run_times_state n ps rng :
  let '(n', _, _, _) := run n ps rng in
  times_visited n' = S (times_visited n) /\ state n' = state n.
Proof.
  destruct n as [t a s [|c ch]].
  - rewrite run_leaf. unfold expand. simpl.
    destruct (Nat.eqb t 0); [done|].
    destruct (get_children_from_mutations s mutations ps) as [[|c0 chs] ps']; done.
  - rewrite run_inner by done.
    destruct (best_ucb_score_index (Node t a s (c :: ch)) rng) as [bi rng1].
    destruct (run_at (c :: ch) bi ps rng1) as [[[ch' ps'] rng2] v]. done.
Qed.

(** [run_at] on an index of the list runs that child and writes it back. *)
Lemma run_at_insert l i c ps rng :
  l !! i = Some c ->
  run_at l i ps rng =
  let '(c', ps', rng', v) := run c ps rng in (<[i:=c']> l, ps', rng', v).
Proof.
  revert i. induction l as [|c0 l IH]; intros [|i] Hi; simpl in Hi; try done.
  - injection Hi as <-. simpl. by destruct (run c0 ps rng) as [[[c' ps'] rng'] v].
  - simpl. rewrite (IH i Hi). by destruct (run c ps rng) as [[[c' ps'] rng'] v].
Qed.

Lemma best_ucb_score_index_lt n rng :
  children n <> [] -> (fst (best_ucb_score_index n rng) < length (children n))%nat.
Proof.
  intros Hne. destruct random_search eqn:Hrs.
  - unfold best_ucb_score_index. rewrite Hrs. simpl. apply Nat.mod_upper_bound.
    destruct (children n); [done|]. simpl. lia.
  - by destruct (best_ucb_score_index_spec n rng Hrs Hne) as (_ & Hlt & _).
Qed.

(** [run] on a node with children, as a composition: run the selected child
    and store it back at its index. *)
Lemma run_inner_insert n ps rng :
  children n <> [] ->
  let '(i, rng1) := best_ucb_score_index n rng in
  exists c, children n !! i = Some c /\
  run n ps rng =
    let '(c', ps', rng2, v) := run c ps rng1 in
    (update_average (Node (times_visited n) (average_evaluation n) (state n)
                       (<[i:=c']> (children n))) v, ps', rng2, v).
Proof.
  intros Hne. pose proof (best_ucb_score_index_lt n rng Hne) as Hlt.
  destruct n as [t a s ch]. cbn [children times_visited average_evaluation state] in *.
  rewrite run_inner by done.
  destruct (best_ucb_score_index (Node t a s ch) rng) as [i rng1]. simpl in Hlt.
  destruct (lookup_lt_is_Some_2 ch i Hlt) as [c Hc].
  exists c. split; [done|]. rewrite (run_at_insert ch i c ps rng1 Hc).
  by destruct (run c ps rng1) as [[[c' ps'] rng2] v].
Qed.

Lemma lookup_forallb {A} (f : A -> bool) l i x :
  forallb f l = true -> l !! i = Some x -> f x = true.
Proof.
  revert i. induction l as [|y l IH]; intros [|i] Hl Hi; simpl in *; try done;
    apply andb_true_iff in Hl as [Hy Hl].
  - by injection Hi as <-.
  - by apply (IH i).
Qed.

Lemma forallb_insert {A} (f : A -> bool) l i x :
  forallb f l = true -> f x = true -> forallb f (<[i:=x]> l) = true.
Proof.
  revert i. induction l as [|y l IH]; intros [|i] Hl Hx; simpl in *; try done;
    apply andb_true_iff in Hl as [Hy Hl]; apply andb_true_iff; split; auto.
Qed.

Lemma sum_list_with_insert {A} (g : A -> nat) l i c x :
  l !! i = Some c ->
  (sum_list_with g (<[i:=x]> l) + g c = sum_list_with g l + g x)%nat.
Proof.
  revert i. induction l as [|y l IH]; intros [|i] Hi; simpl in *; try done.
  - injection Hi as <-. lia.
  - specialize (IH i Hi). lia.
Qed.

Lemma length_flat_map_insert {A B} (f : A -> list B) l i c x :
  l !! i = Some c ->
  (length (flat_map f (<[i:=x]> l)) + length (f c) =
   length (flat_map f l) + length (f x))%nat.
Proof.
  revert i. induction l as [|y l IH]; intros [|i] Hi; simpl in *; try done.
  - injection Hi as <-. rewrite !length_app. lia.
  - specialize (IH i Hi). rewrite !length_app. lia.
Qed.

Lemma elem_of_flat_map_insert {A B} (f : A -> list B) l i x (y : B) :
  y ∈ flat_map f (<[i:=x]> l) -> y ∈ f x \/ y ∈ flat_map f l.
Proof.
  revert i. induction l as [|z l IH]; intros [|i] Hy; simpl in *.
  - by right.
  - by right.
  - rewrite !elem_of_app in Hy |- *. tauto.
  - rewrite !elem_of_app in Hy |- *.
    destruct Hy as [Hy|Hy]; [tauto|]. destruct (IH i Hy); tauto.
Qed.

(** *** Tree size *)

Lemma get_tree_size_fold (ch : list TreeSearchNode) :
  Forall (fun c => get_tree_size c = length (tree_states c)) ch ->
  forall k, fold_left (fun size child => (size + get_tree_size child)%nat) ch k =
            (k + length (flat_map tree_states ch))%nat.
Proof.
  induction 1 as [|c ch Hc _ IH]; intros k; simpl; [lia|].
  rewrite IH, Hc, length_app. lia.
Qed.

Lemma get_tree_size_length n : get_tree_size n = length (tree_states n).
Proof.
  induction n as [t a s ch IHch] using node_ind'. simpl.
  rewrite (get_tree_size_fold ch IHch 1). done.
Qed.

(** One [run] adds at most one node per mutation. *)
Lemma run_tree_size n ps rng :
  let '(n', _, _, _) := run n ps rng in
  (length (tree_states n') <= length (tree_states n) + length mutations)%nat.
Proof.
  revert ps rng. induction n as [t a s ch IHch] using node_ind'. intros ps rng.
  destruct ch as [|c0 ch0].
  - rewrite run_leaf. unfold expand. simpl.
    destruct (Nat.eqb t 0); [simpl; lia|].
    pose proof (get_children_from_mutations_fresh s mutations ps) as Hg.
    assert (Hlen : forall ms ps0,
      (length (fst (get_children_from_mutations s ms ps0)) <= length ms)%nat).
    { clear. induction ms as [|m ms IH]; intros ps0; simpl; [lia|].
      destruct (decide (m s ∈ ps0)); [specialize (IH ps0); lia|].
      specialize (IH ({[m s]} ∪ ({[m s]} ∪ ps0))).
      destruct (get_children_from_mutations s ms ({[m s]} ∪ ({[m s]} ∪ ps0))).
      simpl in *. lia. }
    specialize (Hlen mutations ps).
    destruct (get_children_from_mutations s mutations ps) as [chs ps'].
    destruct Hg as [Hleaf _]. simpl in Hlen.
    assert (Hst : flat_map tree_states chs = map state chs).
    { apply flat_map_tree_states_leaves.
      eapply Forall_impl; [exact Hleaf|]. intros x (_ & _ & Hx). exact Hx. }
    destruct chs as [|c chs]; simpl; [lia|].
    change (flat_map tree_states (c :: chs)) with (tree_states c ++ flat_map tree_states chs) in Hst.
    assert (E := f_equal length Hst). rewrite length_app, length_map in E.
    simpl in E, Hlen |- *. rewrite length_app. lia.
  - pose proof (run_inner_insert (Node t a s (c0 :: ch0)) ps rng ltac:(discriminate)) as Hr.
    destruct (best_ucb_score_index (Node t a s (c0 :: ch0)) rng) as [i rng1].
    destruct Hr as (c & Hc & ->). cbn [children times_visited average_evaluation state] in *.
    pose proof (Forall_lookup_1 _ _ _ _ IHch Hc ps rng1) as IHc.
    destruct (run c ps rng1) as [[[c' ps'] rng2] v].
    pose proof (length_flat_map_insert tree_states (c0 :: ch0) i c c' Hc).
    set (L := c0 :: ch0) in *. unfold update_average.
    cbn [tree_states children state length]. lia.
Qed.

(** *** Best state *)

(** [best] is the first element of [L] with the greatest evaluation. *)
Definition first_max (L : list State) (best : State) : Prop :=
  exists pre post, L = pre ++ best :: post /\
    (forall y, y ∈ pre -> (evaluate y < evaluate best)%Z) /\
    (forall y, y ∈ L -> (evaluate y <= evaluate best)%Z).

Lemma get_max_state_fold (ch : list TreeSearchNode) :
  Forall (fun c => first_max (tree_states c) (get_max_state c)) ch ->
  forall L best, first_max L best ->
  first_max (L ++ flat_map tree_states ch)
    (fold_left (fun best_state child =>
        let child_max_state := get_max_state child in
        if Z.gtb (evaluate child_max_state) (evaluate best_state)
        then child_max_state else best_state) ch best).
Proof.
  induction 1 as [|c ch Hc _ IH]; intros L best HL; simpl.
  - by rewrite app_nil_r.
  - rewrite app_assoc. apply IH.
    destruct HL as (pre & post & HLe & Hpre & Hall).
    destruct Hc as (pre' & post' & Hce & Hpre' & Hall').
    rewrite Z.gtb_ltb.
    destruct (Z.ltb_spec (evaluate best) (evaluate (get_max_state c))) as [Hgt|Hle].
    + exists (L ++ pre'), post'. split; [by rewrite Hce, app_assoc|]. split.
      * intros y Hy. apply elem_of_app in Hy as [Hy|Hy];
          [specialize (Hall y Hy); lia|by apply Hpre'].
      * intros y Hy. apply elem_of_app in Hy as [Hy|Hy];
          [specialize (Hall y Hy); lia|by apply Hall'].
    + exists pre, (post ++ tree_states c). split.
      { rewrite HLe, <-app_assoc. done. }
      split; [done|].
      intros y Hy. apply elem_of_app in Hy as [Hy|Hy];
        [by apply Hall|specialize (Hall' y Hy); lia].
Qed.

Lemma get_max_state_first_max n : first_max (tree_states n) (get_max_state n).
Proof.
  induction n as [t a s ch IHch] using node_ind'. simpl.
  change (s :: flat_map tree_states ch) with ([s] ++ flat_map tree_states ch).
  apply (get_max_state_fold ch IHch [s] s).
  exists [], []. split; [done|]. split.
  - intros y Hy. by apply elem_of_nil in Hy.
  - intros y Hy. apply list_elem_of_singleton in Hy. subst. lia.
Qed.

(** *** Invariants kept by [run] and by the loop of [search] *)

Lemma search_loop_inv (I : TreeSearchNode -> gset State -> Prop) :
  (forall n ps rng, I n ps -> let '(n', ps', _, _) := run n ps rng in I n' ps') ->
  forall k n ps rng, I n ps -> let '(n', ps', _) := search_loop k n ps rng in I n' ps'.
Proof.
  intros Hrun k. induction k as [|k IHk]; intros n ps rng Hn; simpl; [done|].
  pose proof (Hrun n ps rng Hn) as Hr.
  destruct (run n ps rng) as [[[n' ps'] rng'] v]. by apply IHk.
Qed.

Lemma search_loop_root k n ps rng :
  let '(n', _, _) := search_loop k n ps rng in
  times_visited n' = (times_visited n + k)%nat /\ state n' = state n.
Proof.
  revert n ps rng. induction k as [|k IHk]; intros n ps rng; simpl; [split; [lia|done]|].
  pose proof (run_times_state n ps rng) as Hr.
  destruct (run n ps rng) as [[[n' ps'] rng'] v]. destruct Hr as [Ht Hs].
  specialize (IHk n' ps' rng').
  destruct (search_loop k n' ps' rng') as [[n'' ps''] r''].
  destruct IHk as [Ht' Hs']. split; [lia|congruence].
Qed.

Lemma search_loop_size k n ps rng :
  let '(n', _, _) := search_loop k n ps rng in
  (length (tree_states n') <= length (tree_states n) + k * length mutations)%nat.
Proof.
  revert n ps rng. induction k as [|k IHk]; intros n ps rng; simpl; [lia|].
  pose proof (run_tree_size n ps rng) as Hr.
  destruct (run n ps rng) as [[[n' ps'] rng'] v].
  specialize (IHk n' ps' rng').
  destruct (search_loop k n' ps' rng') as [[n'' ps''] r'']. lia.
Qed.

(** The set of previous states is exactly the set of states of the tree. *)
Definition set_is_tree (n : TreeSearchNode) (ps : gset State) : Prop :=
  forall x, x ∈ ps <-> x ∈ tree_states n.

Lemma run_set_is_tree n ps rng :
  set_is_tree n ps -> let '(n', ps', _, _) := run n ps rng in set_is_tree n' ps'.
Proof.
  intros Heq. pose proof (run_fresh n ps rng) as Hr.
  destruct (run n ps rng) as [[[n' ps'] rng'] v].
  destruct Hr as (new & (_ & _ & Hs) & Hperm). unfold set_is_tree in *. intros x.
  rewrite Hs, Hperm, elem_of_app, Heq. tauto.
Qed.

Lemma set_size_tree_states n (ps : gset State) :
  NoDup (tree_states n) -> set_is_tree n ps -> size ps = length (tree_states n).
Proof.
  intros Hnd Heq.
  assert (ps = list_to_set (tree_states n)) as ->.
  { apply set_eq. intros x. rewrite elem_of_list_to_set. apply Heq. }
  by apply size_list_to_set.
Qed.

Lemma search_tree_set_is_tree start_state loops rng :
  let '(base_node, ps, _) := search_tree start_state loops rng in
  set_is_tree base_node ps /\ NoDup (tree_states base_node).
Proof.
  unfold search_tree, new_node.
  assert (Hstep : forall n ps r, set_is_tree n ps /\ dedup_inv n ps ->
            let '(n', ps', _, _) := run n ps r in set_is_tree n' ps' /\ dedup_inv n' ps').
  { intros n ps r [Hs Hd]. pose proof (run_set_is_tree n ps r Hs) as H1.
    pose proof (run_dedup_inv n ps r Hd) as H2.
    destruct (run n ps r) as [[[n' ps'] r'] v]. by split. }
  assert (H0 : set_is_tree (Node 0 0 start_state []) ({[start_state]} ∪ ∅) /\
               dedup_inv (Node 0 0 start_state []) ({[start_state]} ∪ ∅)).
  { split; [|split; [apply NoDup_singleton|]].
    + intros x. simpl. set_solver.
    + intros x Hx. simpl in Hx. set_solver. }
  pose proof (search_loop_inv _ Hstep loops _ _ rng H0) as Hl.
  destruct (search_loop loops (Node 0 0 start_state []) ({[start_state]} ∪ ∅) rng)
    as [[n ps] r]. destruct Hl as [Hs [Hd _]]. by split.
Qed.

(** Visits of a node against the visits of its children. *)
Definition children_visits (n : TreeSearchNode) : nat :=
  sum_list_with times_visited (children n).

(** A node with children has at least two more visits than its children
    together. *)
Definition visits_exceed_children (n : TreeSearchNode) : bool :=
  match children n with
  | [] => true
  | _ :: _ => Nat.leb (children_visits n + 2) (times_visited n)
  end.

Lemma visits_exceed_children_iff n :
  visits_exceed_children n = true <->
  children n = [] \/ (children_visits n + 2 <= times_visited n)%nat.
Proof.
  unfold visits_exceed_children. destruct (children n) eqn:E; [tauto|].
  rewrite Nat.leb_le. split; [by right|]. by intros [?|?].
Qed.

Definition visits_exceed_prop (n : TreeSearchNode) : Prop :=
  forall ps rng,
    all_nodes visits_exceed_children n = true ->
    let '(n', _, _, _) := run n ps rng in
    all_nodes visits_exceed_children n' = true.

Lemma run_visits_exceed n : visits_exceed_prop n.
Proof.
  induction n as [t a s ch IHch] using node_ind'. intros ps rng Hok.
  destruct ch as [|c0 ch0].
  - rewrite run_leaf. unfold expand. simpl.
    destruct (Nat.eqb t 0) eqn:Et; [done|].
    pose proof (get_children_from_mutations_fresh s mutations ps) as Hg.
    destruct (get_children_from_mutations s mutations ps) as [chs ps'].
    destruct Hg as [Hleaf _].
    assert (Hl : forallb (all_nodes visits_exceed_children) chs = true).
    { clear -Hleaf. induction Hleaf as [|[t' a' s' ch'] chs (_ & _ & Hc) _ IH];
        [done|]. simpl in *. subst ch'. exact IH. }
    assert (Hs : sum_list_with times_visited chs = 0%nat).
    { clear -Hleaf. induction Hleaf as [|c chs (Hc & _) _ IH]; [done|].
      simpl. lia. }
    apply Nat.eqb_neq in Et.
    destruct chs as [|c1 chs1]; [done|].
    change (visits_exceed_children
              (Node (S t) (a + (IZR (simulate c1 rng ps') - a) / INR (S t)) s
                 (c1 :: chs1))
            && forallb (all_nodes visits_exceed_children) (c1 :: chs1) = true).
    rewrite Hl, andb_true_r. apply visits_exceed_children_iff. right.
    unfold children_visits. cbn [children times_visited]. lia.
  - pose proof (run_inner_insert (Node t a s (c0 :: ch0)) ps rng ltac:(discriminate))
      as Hr.
    destruct (best_ucb_score_index (Node t a s (c0 :: ch0)) rng) as [i rng1].
    destruct Hr as (c & Hc & ->). cbn [children times_visited average_evaluation state] in *.
    change (visits_exceed_children (Node t a s (c0 :: ch0))
            && forallb (all_nodes visits_exceed_children) (c0 :: ch0) = true) in Hok.
    apply andb_true_iff in Hok as [Hroot Hch].
    apply visits_exceed_children_iff in Hroot as [Hroot|Hroot]; [discriminate|].
    unfold children_visits in Hroot. cbn [children times_visited] in Hroot.
    pose proof (Forall_lookup_1 _ _ _ _ IHch Hc ps rng1
                  (lookup_forallb _ _ _ _ Hch Hc)) as IHc.
    pose proof (run_times_state c ps rng1) as Htc.
    destruct (run c ps rng1) as [[[c' ps'] rng2] v]. destruct Htc as [Htc _].
    pose proof (sum_list_with_insert times_visited (c0 :: ch0) i c c' Hc) as Hsum.
    set (L := c0 :: ch0) in *.
    change (visits_exceed_children (Node (S t) (a + (IZR v - a) / INR (S t)) s
                                      (<[i:=c']> L))
            && forallb (all_nodes visits_exceed_children) (<[i:=c']> L) = true).
    rewrite (forallb_insert _ _ _ _ Hch IHc), andb_true_r.
    apply visits_exceed_children_iff. right.
    unfold children_visits. cbn [children times_visited]. lia.
Qed.

(** *** Running averages stay in the range of [i32] *)

(** The nodes of a tree, root first. *)
Fixpoint tree_nodes (n : TreeSearchNode) : list TreeSearchNode :=
  match n with
  | Node _ _ _ ch => n :: flat_map tree_nodes ch
  end.

Definition average_in_i32 (m : TreeSearchNode) : Prop :=
  IZR I32_MIN <= average_evaluation m <= IZR I32_MAX.

Lemma update_average_between (lo hi : R) n v :
  lo <= average_evaluation n <= hi -> lo <= IZR v <= hi ->
  lo <= average_evaluation (update_average n v) <= hi.
Proof.
  intros [Ha1 Ha2] [Hv1 Hv2]. unfold update_average. cbn [average_evaluation].
  set (a := average_evaluation n) in *.
  assert (Hd : 1 <= INR (S (times_visited n))).
  { rewrite S_INR. pose proof (pos_INR (times_visited n)). lra. }
  set (d := INR (S (times_visited n))) in *.
  assert (Hk : 0 < / d <= 1).
  { split; [apply Rinv_0_lt_compat; lra|]. rewrite <- Rinv_1.
    apply Rinv_le_contravar; lra. }
  unfold Rdiv. destruct (Rle_dec a (IZR v)); split; nra.
Qed.

Lemma move_away_value_i32 a : (I32_MIN <= move_away_value a <= I32_MAX)%Z.
Proof. unfold move_away_value, as_i32, I32_MIN, I32_MAX. lia. Qed.

Lemma tree_nodes_update_average n v :
  tree_nodes (update_average n v) =
  update_average n v :: flat_map tree_nodes (children n).
Proof. by destruct n. Qed.

Lemma elem_of_flat_map_intro {A B} (f : A -> list B) l x (y : B) :
  x ∈ l -> y ∈ f x -> y ∈ flat_map f l.
Proof.
  induction l as [|z l IH]; intros Hx Hy; [by apply elem_of_nil in Hx|].
  simpl. rewrite elem_of_app. apply elem_of_cons in Hx as [->|Hx]; [by left|].
  right. by apply IH.
Qed.

Definition averages_prop (n : TreeSearchNode) : Prop :=
  forall ps rng,
    (forall r x ps0, (I32_MIN <= rollout r x ps0 <= I32_MAX)%Z) ->
    (forall m, m ∈ tree_nodes n -> average_in_i32 m) ->
    let '(n', _, _, v) := run n ps rng in
    (I32_MIN <= v <= I32_MAX)%Z /\
    (forall m, m ∈ tree_nodes n' -> average_in_i32 m).

Lemma flat_map_tree_nodes_leaves (chs : list TreeSearchNode) :
  Forall (fun c => children c = []) chs -> flat_map tree_nodes chs = chs.
Proof.
  induction 1 as [|[t a s ch] chs Hc _ IH]; simpl in *; [done|].
  subst ch. simpl. by rewrite IH.
Qed.

Lemma run_averages n : averages_prop n.
Proof.
  induction n as [t a s ch IHch] using node_ind'. intros ps rng Hroll Hall.
  assert (Hroot : average_in_i32 (Node t a s ch)) by (apply Hall; by left).
  assert (Hv : forall ch' v, (I32_MIN <= v <= I32_MAX)%Z ->
             average_in_i32 (update_average (Node t a s ch') v)).
  { intros ch' v [Hv1 Hv2]. apply update_average_between; [exact Hroot|].
    split; apply IZR_le; lia. }
  destruct ch as [|c0 ch0].
  - rewrite run_leaf. unfold expand. cbn [times_visited state average_evaluation].
    destruct (Nat.eqb t 0).
    + split; [apply Hroll|]. intros m Hm.
      rewrite tree_nodes_update_average in Hm. simpl in Hm.
      apply list_elem_of_singleton in Hm as ->. apply Hv, Hroll.
    + pose proof (get_children_from_mutations_fresh s mutations ps) as Hg.
      destruct (get_children_from_mutations s mutations ps) as [chs ps'].
      destruct Hg as [Hleaf _].
      destruct chs as [|c1 chs1].
      * split; [apply move_away_value_i32|]. intros m Hm.
        rewrite tree_nodes_update_average in Hm. simpl in Hm.
        apply list_elem_of_singleton in Hm as ->. apply Hv, move_away_value_i32.
      * split; [apply Hroll|]. intros m Hm.
        rewrite tree_nodes_update_average in Hm. cbn [children] in Hm.
        apply elem_of_cons in Hm as [->|Hm]; [apply Hv, Hroll|].
        rewrite flat_map_tree_nodes_leaves in Hm.
        2:{ eapply Forall_impl; [exact Hleaf|]. intros x (_ & _ & Hx). exact Hx. }
        rewrite Forall_forall in Hleaf. destruct (Hleaf m Hm) as (_ & Ha & _).
        unfold average_in_i32. rewrite Ha. split; apply IZR_le; done.
  - pose proof (run_inner_insert (Node t a s (c0 :: ch0)) ps rng ltac:(discriminate))
      as Hr.
    destruct (best_ucb_score_index (Node t a s (c0 :: ch0)) rng) as [i rng1].
    destruct Hr as (c & Hc & ->).
    cbn [children times_visited average_evaluation state] in *.
    set (L := c0 :: ch0) in *.
    assert (HallL : forall m, m ∈ flat_map tree_nodes L -> average_in_i32 m).
    { intros m Hm. apply Hall. simpl. apply elem_of_cons. by right. }
    pose proof (Forall_lookup_1 _ _ _ _ IHch Hc ps rng1 Hroll) as IHc.
    specialize (IHc (fun m Hm => HallL m (elem_of_flat_map_intro tree_nodes L c m
                                   (list_elem_of_lookup_2 _ _ _ Hc) Hm))).
    destruct (run c ps rng1) as [[[c' ps'] rng2] v]. destruct IHc as [Hvr Hc'].
    split; [done|]. intros m Hm.
    rewrite tree_nodes_update_average in Hm. cbn [children] in Hm.
    apply elem_of_cons in Hm as [->|Hm]; [by apply Hv|].
    apply elem_of_flat_map_insert in Hm as [Hm|Hm]; [by apply Hc'|by apply HallL].
Qed.

(** ** Further properties *)

(** X1 ([get_tree_size]).  The size computed by [get_tree_size] is the
    number of nodes of the tree: one per node, root included. *)
Theorem get_tree_size_counts_nodes n :
  get_tree_size n = length (tree_states n).
Proof. apply get_tree_size_length. Qed.

(** X2 ([get_max_state]).  [get_max_state] returns the state of a node of the
    tree, with the greatest evaluation among all the nodes; on ties it keeps
    the first such state in root-first order (a later state replaces the
    current best only when it evaluates strictly higher). *)
Theorem get_max_state_first_greatest n :
  exists pre post,
    tree_states n = pre ++ get_max_state n :: post /\
    (forall y, y ∈ pre -> (evaluate y < evaluate (get_max_state n))%Z) /\
    (forall y, y ∈ tree_states n -> (evaluate y <= evaluate (get_max_state n))%Z).
Proof. apply get_max_state_first_max. Qed.

(** X3 ([search]).  At the end of [search], the set of previous states is
    exactly the set of states of the tree, and the tree size that [search]
    returns is the number of states in the set. *)
Theorem search_size_is_set_size start_state loops rng :
  let '(base_node, previous_states, _) := search_tree start_state loops rng in
  snd (search start_state loops rng) = size previous_states /\
  (forall x, x ∈ previous_states <-> x ∈ tree_states base_node).
Proof.
  pose proof (search_tree_set_is_tree start_state loops rng) as Hs.
  unfold search. destruct (search_tree start_state loops rng) as [[n ps] r].
  destruct Hs as [Hs Hnd]. split; [|exact Hs]. simpl.
  rewrite get_tree_size_length. symmetry. by apply set_size_tree_states.
Qed.

(** X4 ([search]).  The state returned by [search] is in the set of previous
    states and evaluates at least as high as every state in it, the start
    state included. *)
Theorem search_best_state start_state loops rng :
  let '(_, previous_states, _) := search_tree start_state loops rng in
  let best := fst (search start_state loops rng) in
  best ∈ previous_states /\
  (forall x, x ∈ previous_states -> (evaluate x <= evaluate best)%Z) /\
  (evaluate start_state <= evaluate best)%Z.
Proof.
  pose proof (search_tree_set_is_tree start_state loops rng) as Hs.
  pose proof (search_loop_root loops (Node 0 0 start_state []) ({[start_state]} ∪ ∅) rng)
    as Hroot.
  unfold search. unfold search_tree, new_node in *.
  destruct (search_loop loops (Node 0 0 start_state []) ({[start_state]} ∪ ∅) rng)
    as [[n ps] r].
  destruct Hs as [Hs _]. destruct Hroot as [_ Hst]. simpl in Hst.
  destruct (get_max_state_first_max n) as (pre & post & Hsplit & _ & Hmax).
  simpl. split; [|split].
  - apply Hs. rewrite Hsplit. apply elem_of_app. right. by left.
  - intros x Hx. apply Hmax, Hs, Hx.
  - apply Hmax. destruct n as [t a s ch]. simpl in Hst |- *. subst s. by left.
Qed.

(** X5 ([search], [run]).  The root keeps the start state and is visited
    exactly once per iteration of [search]. *)
Theorem search_root_visits start_state loops rng :
  let '(base_node, _, _) := search_tree start_state loops rng in
  times_visited base_node = loops /\ state base_node = start_state.
Proof.
  unfold search_tree, new_node.
  pose proof (search_loop_root loops (Node 0 0 start_state []) ({[start_state]} ∪ ∅) rng)
    as Hr.
  destruct (search_loop loops (Node 0 0 start_state []) ({[start_state]} ∪ ∅) rng)
    as [[n ps] r]. simpl in Hr. done.
Qed.

(** X6 ([search], [run], [get_children_from_mutations]).  Each iteration adds
    at most one node per mutation: after [loops] iterations the tree size
    that [search] returns is at most [1 + loops * |mutations|]. *)
Theorem search_tree_size_bound start_state loops rng :
  (snd (search start_state loops rng) <= 1 + loops * length mutations)%nat.
Proof.
  unfold search, search_tree, new_node.
  pose proof (search_loop_size loops (Node 0 0 start_state []) ({[start_state]} ∪ ∅) rng)
    as Hs.
  destruct (search_loop loops (Node 0 0 start_state []) ({[start_state]} ∪ ∅) rng)
    as [[n ps] r]. simpl in *. rewrite get_tree_size_length. lia.
Qed.

(** X7 ([best_ucb_score_index]).  On a node with children, in both modes,
    the index returned is an index of [children] (so
    [self.children[best_index]] in [run] never panics); the random mode draws
    exactly one random number, the non-random mode none. *)
Theorem best_ucb_score_index_in_range n rng :
  children n <> [] ->
  (fst (best_ucb_score_index n rng) < length (children n))%nat /\
  snd (best_ucb_score_index n rng) = (if random_search then S rng else rng).
Proof.
  intros Hne. split; [by apply best_ucb_score_index_lt|].
  unfold best_ucb_score_index. by destruct random_search.
Qed.

(** X8 ([run]).  On a node with children, [run] selects an index [i] of
    [children], runs the child at [i] with the set and the random position
    left by the selection, stores the updated child back at [i] (the other
    children are unchanged), and updates the node's own count and average
    with the child's score, which it returns. *)
Theorem run_selected_child n previous_states rng :
  children n <> [] ->
  let '(i, rng1) := best_ucb_score_index n rng in
  exists c, children n !! i = Some c /\
  run n previous_states rng =
    let '(c', ps', rng2, v) := run c previous_states rng1 in
    (update_average (Node (times_visited n) (average_evaluation n) (state n)
                       (<[i:=c']> (children n))) v, ps', rng2, v).
Proof. apply run_inner_insert. Qed.

(** X9 ([run], [search]).  After any number of iterations of [search], every
    node with children has been visited at least twice more than all its
    children together: a node gets its children on its second visit at the
    earliest, and every later visit goes on to exactly one child. *)
Theorem search_visits_exceed_children start_state loops rng :
  let '(base_node, _, _) := search_tree start_state loops rng in
  all_nodes (fun m => match children m with
                      | [] => true
                      | _ :: _ => Nat.leb (sum_list_with times_visited (children m) + 2)
                                          (times_visited m)
                      end) base_node = true.
Proof.
  unfold search_tree, new_node.
  refine (search_loop_inv (fun n _ => all_nodes visits_exceed_children n = true)
            _ loops (Node 0 0 start_state []) ({[start_state]} ∪ ∅) rng eq_refl).
  intros n ps r Hn. pose proof (run_visits_exceed n ps r Hn) as Hr.
  by destruct (run n ps r) as [[[n' ps'] r'] v].
Qed.

(** X10 ([run], [update_average], [search]).  When the rollout returns
    [i32] scores, every score [run] returns is an [i32] and, after any number
    of iterations of [search], the average of every node lies in the range of
    [i32] (each average is a running mean of such scores; the dead-end value
    is saturated by [as i32]). *)
Theorem search_averages_in_i32 start_state loops rng :
  (forall r x ps, (I32_MIN <= rollout r x ps <= I32_MAX)%Z) ->
  (forall n previous_states r,
     (forall m, m ∈ tree_nodes n ->
        IZR I32_MIN <= average_evaluation m <= IZR I32_MAX) ->
     let '(_, _, _, v) := run n previous_states r in
     (I32_MIN <= v <= I32_MAX)%Z) /\
  let '(base_node, _, _) := search_tree start_state loops rng in
  forall m, m ∈ tree_nodes base_node ->
    IZR I32_MIN <= average_evaluation m <= IZR I32_MAX.
Proof.
  intros Hroll. split.
  - intros n ps r Hall. pose proof (run_averages n ps r Hroll Hall) as Hr.
    destruct (run n ps r) as [[[n' ps'] r'] v]. by destruct Hr.
  - unfold search_tree, new_node.
    refine (search_loop_inv (fun n _ => forall m, m ∈ tree_nodes n -> average_in_i32 m)
              _ loops (Node 0 0 start_state []) ({[start_state]} ∪ ∅) rng _).
    + intros n ps r Hn. pose proof (run_averages n ps r Hroll Hn) as Hr.
      destruct (run n ps r) as [[[n' ps'] r'] v]. by destruct Hr.
    + intros m Hm. simpl in Hm. apply list_elem_of_singleton in Hm as ->.
      unfold average_in_i32. simpl. split; apply IZR_le; done.
Qed.

End TreeSearch.

(** X14 ([ucb]).  For a visited child ([times_visited >= 1]) of a node
    visited at least once, with [uct_exploration >= 0], the exploration term
    is nonnegative: the score is at least the child's average, and equal to
    it when the parent was visited exactly once ([ln 1 = 0]). *)
Theorem ucb_at_least_average (average_evaluation uct_exploration : R)
    (times_visited total_times_visited : nat) :
  0 <= uct_exploration -> times_visited <> 0%nat -> (1 <= total_times_visited)%nat ->
  average_evaluation <=
    ucb average_evaluation uct_exploration times_visited total_times_visited /\
  (total_times_visited = 1%nat ->
   ucb average_evaluation uct_exploration times_visited total_times_visited =
   average_evaluation).
Proof.
  intros Hc Ht Htot. unfold ucb. apply Nat.eqb_neq in Ht. rewrite Ht. cbv zeta.
  split.
  - assert (Hln : 0 <= ln (INR total_times_visited)).
    { apply le_INR in Htot. replace (INR 1) with 1 in Htot by reflexivity.
      destruct (Rle_lt_or_eq_dec 1 (INR total_times_visited) Htot) as [Hlt|Heq].
      + left. rewrite <- ln_1. apply ln_increasing; lra.
      + rewrite <- Heq, ln_1. lra. }
    pose proof (sqrt_pos (ln (INR total_times_visited) / INR times_visited)). nra.
  - intros ->. replace (INR 1) with 1 by reflexivity.
    rewrite ln_1. unfold Rdiv. rewrite Rmult_0_l, sqrt_0. lra.
Qed.

(** ** Witnesses and counterexamples on concrete inputs *)

Module Concrete.

(** States are integers; two mutations, [+1] and [+2]. *)
Definition mutations : list (Z -> Z) := [fun x => (x + 1)%Z; fun x => (x + 2)%Z].
Definition evaluate (x : Z) : Z := x.
Definition rollout (_ : nat) (x : Z) (_ : gset Z) : Z := x.
Definition rand (r : nat) : nat := r.

(** A node visited three times whose first child was visited once (average
    1) and whose second child was never visited. *)
Definition two_children_node : TreeSearchNode :=
  Node 3 0 0%Z [Node 1 1 1%Z []; Node 0 0 2%Z []].

Lemma two_children_selection :
  best_ucb_score_index rand F64_MAX false two_children_node 0 = (0%nat, 0%nat).
Proof.
  unfold best_ucb_score_index, two_children_node. cbn [children length times_visited].
  cbn [best_ucb_loop average_evaluation times_visited].
  pose proof ucb_above_f64_max as Hu. pose proof F64_MAX_pos as Hp.
  destruct (Rlt_dec 0 (ucb 1 F64_MAX 1 3)) as [_|Hn]; [|lra].
  replace (ucb 0 F64_MAX 0 3) with F64_MAX by reflexivity.
  destruct (Rlt_dec (ucb 1 F64_MAX 1 3) F64_MAX) as [Hl|_]; [lra|].
  reflexivity.
Qed.

(** A childless node visited once, with average 10, whose only successor
    [x + 0] is already in the set: [run] takes the dead-end branch. *)
Definition dead_end_node : TreeSearchNode := Node 1 10 0%Z [].
Definition identity_mutation : list (Z -> Z) := [fun x => x].
Definition visited0 : gset Z := {[0%Z]}.

End Concrete.


(** *** C1 *)

Lemma search_tree_states_distinct_witness :
  let '(base_node, previous_states, _) :=
    search_tree Concrete.mutations Concrete.rollout Concrete.rand 1 (1 / 2) false
      0%Z 3%nat 0%nat in
  NoDup (tree_states base_node) /\
  (forall x, x ∈ tree_states base_node -> x ∈ previous_states).
Proof.
  exact (proj1 (search_tree_states_distinct Concrete.mutations Concrete.evaluate
                  Concrete.rollout Concrete.rand 1 (1 / 2) false) 0%Z 3%nat 0%nat).
Defined.

(** *** C2 *)

(** The claim scores a never-visited child +infinity, strictly above every
    finite score, so on [two_children_node] it selects index 1, the only
    never-visited child.  The code scores it [std::f64::MAX], which the
    visited child's score exceeds when [uct_exploration = std::f64::MAX]:
    the selection returns index 0. *)
Lemma best_ucb_score_index_infinity_counterexample :
  fst (best_ucb_score_index Concrete.rand F64_MAX false Concrete.two_children_node 0)
    = 0%nat /\
  children Concrete.two_children_node !! 1%nat = Some (Node 0 0 2%Z []) /\
  times_visited (Node (State:=Z) 0 0 2%Z []) = 0%nat /\
  ucb_score F64_MAX 3%nat (Node (State:=Z) 0 0 2%Z []) = F64_MAX /\
  F64_MAX < ucb_score F64_MAX 3%nat (Node (State:=Z) 1 1 1%Z []).
Proof.
  rewrite Concrete.two_children_selection.
  split; [reflexivity|]. split; [reflexivity|]. split; [reflexivity|].
  split; [reflexivity|]. exact ucb_above_f64_max.
Qed.

Lemma best_ucb_score_index_first_greatest_witness :
  false = false /\
  children (Node (State:=Z) 2 0 0%Z [Node 0 0 1%Z []; Node 0 0 2%Z []]) <> [] /\
  (fst (best_ucb_score_index Concrete.rand 1 false
          (Node (State:=Z) 2 0 0%Z [Node 0 0 1%Z []; Node 0 0 2%Z []]) 0) < 2)%nat.
Proof.
  split; [reflexivity|]. split; [discriminate|].
  destruct (best_ucb_score_index_first_greatest Concrete.rand 1 false
              (Node (State:=Z) 2 0 0%Z [Node 0 0 1%Z []; Node 0 0 2%Z []]) 0
              eq_refl ltac:(discriminate)) as (_ & Hlt & _).
  exact Hlt.
Defined.

(** *** C3 *)

(** [two_children_node] has a visited child (index 0) and a never-visited
    child (index 1); with [uct_exploration = std::f64::MAX] the non-random
    selection returns the visited one. *)
Lemma unvisited_first_counterexample :
  fst (best_ucb_score_index Concrete.rand F64_MAX false Concrete.two_children_node 0)
    = 0%nat /\
  children Concrete.two_children_node !! 0%nat = Some (Node 1 1 1%Z []) /\
  children Concrete.two_children_node !! 1%nat = Some (Node 0 0 2%Z []).
Proof.
  rewrite Concrete.two_children_selection.
  split; [reflexivity|]. split; reflexivity.
Qed.

Lemma best_ucb_score_index_unvisited_first_witness :
  let n := Node (State:=Z) 3 0 0%Z [Node 1 5 1%Z []; Node 0 0 2%Z []] in
  false = false /\
  (exists j c, children n !! j = Some c /\ times_visited c = 0%nat) /\
  (forall c, c ∈ children n -> times_visited c <> 0%nat ->
     ucb_score 0 (times_visited n) c < F64_MAX) /\
  (exists c, children n !! fst (best_ucb_score_index Concrete.rand 0 false n 0) = Some c /\
     times_visited c = 0%nat).
Proof.
  intros n.
  assert (Hex : exists j c, children n !! j = Some c /\ times_visited c = 0%nat)
    by (exists 1%nat, (Node 0 0 2%Z []); split; reflexivity).
  assert (Hb : forall c, c ∈ children n -> times_visited c <> 0%nat ->
                 ucb_score 0 (times_visited n) c < F64_MAX).
  { intros c Hc Ht. unfold n in Hc. cbn [children] in Hc.
    rewrite elem_of_cons, list_elem_of_singleton in Hc.
    destruct Hc as [->| ->]; [|done].
    unfold ucb_score, ucb. cbn [average_evaluation times_visited Nat.eqb].
    rewrite Rmult_0_l. pose proof F64_MAX_ge_1024. lra. }
  split; [reflexivity|]. split; [exact Hex|]. split; [exact Hb|].
  destruct (best_ucb_score_index_unvisited_first Concrete.rand 0 false n 0
              eq_refl Hex Hb) as (c & Hc & Ht & _).
  exists c. split; [exact Hc|exact Ht].
Defined.

(** *** C4 *)

Lemma dead_end_policy_value_witness :
  takes_dead_end Concrete.identity_mutation Concrete.dead_end_node Concrete.visited0 = true /\
  run Concrete.identity_mutation Concrete.rollout Concrete.rand 1 (1 / 2) false
    Concrete.dead_end_node Concrete.visited0 0 =
  (Node 2 (10 + (IZR (as_i32 (10 - Rabs 10 * (1 / 2))) - 10) / INR 2) 0%Z [],
   Concrete.visited0, 0%nat, as_i32 (10 - Rabs 10 * (1 / 2))).
Proof.
  split; [vm_compute; reflexivity|].
  exact (dead_end_policy_value Concrete.identity_mutation Concrete.rollout
           Concrete.rand 1 (1 / 2) false Concrete.dead_end_node Concrete.visited0 0
           ltac:(vm_compute; reflexivity)).
Defined.

(** *** C5 *)

(** Evaluates the binary64 operations of the goal. *)
Ltac eval_f64 :=
  repeat match goal with
  | |- context [f64_sub ?x ?y] =>
      let v := eval vm_compute in (f64_sub x y) in change (f64_sub x y) with v
  | |- context [round_q ?n ?d] =>
      let v := eval vm_compute in (round_q n d) in change (round_q n d) with v
  | |- context [f64_of_Z ?z] =>
      let v := eval vm_compute in (f64_of_Z z) in change (f64_of_Z z) with v
  end.




(** *** C6 *)

(** In binary64, backpropagating 1, 0, 0 into a fresh node gives the average
    0.33333333333333337 ([6004799503160662 * 2^-54]): neither the mean 1/3
    nor the binary64 value nearest to it, 0.3333333333333333
    ([6004799503160661 * 2^-54]). *)
Lemma backpropagation_mean_counterexample :
  let '(t, average) :=
    fold_left (fun st v => update_average_f64 (fst st) (snd st) v) [1; 0; 0]%Z
      (0%nat, f64_of_Z 0) in
  t = 3%nat /\ average = F64 6004799503160662 (-54) /\
  f64_real average <> IZR (1 + 0 + 0) / INR 3 /\
  round_q 1 3 = F64 6004799503160661 (-54) /\
  f64_real average <> f64_real (round_q 1 3).
Proof.
  match goal with
  | |- context [fold_left ?f ?l ?x] =>
      let v := eval vm_compute in (fold_left f l x) in change (fold_left f l x) with v
  end.
  eval_f64. cbv beta iota.
  split; [reflexivity|]. split; [reflexivity|].
  rewrite !f64_real_neg.
  change (2 ^ Z.pos 54)%Z with 18014398509481984%Z.
  replace (INR 3) with 3 by (simpl; lra).
  rewrite !plus_IZR.
  split; [intros Hc; lra|]. split; [reflexivity|]. intros Hc; lra.
Qed.

(** *** C7 *)

Lemma expand_deferred_witness :
  children (Node (State:=Z) 0 0 0%Z []) = [] /\
  expand Concrete.mutations (Node 0 0 0%Z []) Concrete.visited0 =
    (Node 0 0 0%Z [], Node 0 0 0%Z [], Concrete.visited0, false).
Proof.
  split; [reflexivity|].
  apply (proj1 (expand_deferred Concrete.mutations Concrete.rollout Concrete.rand
                  1 (1 / 2) false (Node 0 0 0%Z []) Concrete.visited0 0%nat eq_refl)).
  reflexivity.
Defined.

(** *** C10 *)

Lemma dead_end_persists_witness :
  takes_dead_end Concrete.identity_mutation Concrete.dead_end_node Concrete.visited0 = true /\
  let '(n', ps', _, _) :=
    run Concrete.identity_mutation Concrete.rollout Concrete.rand 1 (1 / 2) false
      Concrete.dead_end_node Concrete.visited0 0 in
  takes_dead_end Concrete.identity_mutation n' ({[1%Z]} ∪ ps') = true.
Proof.
  split; [vm_compute; reflexivity|].
  pose proof (proj2 (dead_end_persists Concrete.identity_mutation Concrete.evaluate
                       Concrete.rollout Concrete.rand 1 (1 / 2) false)
                Concrete.dead_end_node Concrete.visited0 0%nat ltac:(vm_compute; reflexivity)) as Hp.
  destruct (run Concrete.identity_mutation Concrete.rollout Concrete.rand 1 (1 / 2)
              false Concrete.dead_end_node Concrete.visited0 0) as [[[n' ps'] r] v].
  destruct Hp as (_ & _ & Hnext). apply Hnext. set_solver.
Defined.

(** * The evaluator of [src/implementations/evaluations_tree.rs]

    A [StateArray] is the list of its [STATE_SIZE] entries; [dot_product]
    and [random_array] come from the [utils] module and are parameters.
    [rand::thread_rng] is the random stream [rand] with a position threaded
    through the construction; [gen_range(lo..hi)] is [lo + r mod (hi - lo)]
    for the next random number [r].  Indexing [state.0[index]] out of bounds
    panics: [evaluate] then returns [None]. *)

Module EvaluationsTree.

Definition STATE_SIZE : nat := 5.
Definition NODE_VALUE_MIN : Z := (-50)%Z.
Definition NODE_VALUE_MAX : Z := 50%Z.

Section EvaluationsTree.

(** [utils::dot_product] *)
Variable dot_product : list Z -> list Z -> Z.
(** [utils::random_array(min, max)], drawing from the random stream from a
    position and returning the next position. *)
Variable random_array : Z -> Z -> nat -> list Z * nat.
(** The random stream behind [rand::thread_rng]. *)
Variable rand : nat -> nat.

(** The two implementors of [Evaluator<StateArray>] of the file:
    [EvaluationNode] and [EvaluationLeaf]. *)
Inductive Evaluator : Type :=
| EvaluationNode (left right : Evaluator) (value : Z) (index : nat)
| EvaluationLeaf (weights : list Z).

(** [evaluate] of [EvaluationNode] and of [EvaluationLeaf]. *)
Fixpoint evaluate (e : Evaluator) (state : list Z) : option Z :=
  match e with
  | EvaluationNode l r value index =>
      match nth_error state index with
      | None => None
      | Some x => if Z.leb x value then evaluate l state else evaluate r state
      end
  | EvaluationLeaf weights => Some (dot_product weights state)
  end.

(** [new_random_node]: [index = gen_range(0..STATE_SIZE)], then
    [value = gen_range(NODE_VALUE_MIN..NODE_VALUE_MAX - 1)]. *)
Definition new_random_node (left_ right_ : Evaluator) (rng : nat) : Evaluator * nat :=
  let index := (rand rng mod STATE_SIZE)%nat in
  let value := (NODE_VALUE_MIN +
                Z.of_nat (rand (S rng)) mod (NODE_VALUE_MAX - 1 - NODE_VALUE_MIN))%Z in
  (EvaluationNode left_ right_ value index, S (S rng)).

(** [new_random_leaf] *)
Definition new_random_leaf (rng : nat) : Evaluator * nat :=
  let '(weights, rng') := random_array NODE_VALUE_MIN NODE_VALUE_MAX rng in
  (EvaluationLeaf weights, rng').

(** [build_evaluations_tree]: the left subtree is built first, then the
    right one, then the node. *)
Fixpoint build_evaluations_tree (depth : nat) (rng : nat) : Evaluator * nat :=
  match depth with
  | O => new_random_leaf rng
  | S d =>
      let '(left_, rng1) := build_evaluations_tree d rng in
      let '(right_, rng2) := build_evaluations_tree d rng1 in
      new_random_node left_ right_ rng2
  end.

(** Every [EvaluationNode] of a tree satisfies [p] on its value and index. *)
Fixpoint all_decisions (p : Z -> nat -> bool) (e : Evaluator) : bool :=
  match e with
  | EvaluationNode l r value index => p value index && all_decisions p l && all_decisions p r
  | EvaluationLeaf _ => true
  end.

(** A complete tree of height [d]: every leaf at [d] nodes below the root. *)
Fixpoint complete (d : nat) (e : Evaluator) : bool :=
  match d, e with
  | O, EvaluationLeaf _ => true
  | S d', EvaluationNode l r _ _ => complete d' l && complete d' r
  | _, _ => false
  end.

Fixpoint leaf_count (e : Evaluator) : nat :=
  match e with
  | EvaluationNode l r _ _ => (leaf_count l + leaf_count r)%nat
  | EvaluationLeaf _ => 1%nat
  end.

Fixpoint node_count (e : Evaluator) : nat :=
  match e with
  | EvaluationNode l r _ _ => S (node_count l + node_count r)
  | EvaluationLeaf _ => 0%nat
  end.

(** The weights of the leaves of a tree, left to right. *)
Fixpoint leaves (e : Evaluator) : list (list Z) :=
  match e with
  | EvaluationNode l r _ _ => leaves l ++ leaves r
  | EvaluationLeaf w => [w]
  end.

Definition decision_in_range (value : Z) (index : nat) : bool :=
  Nat.ltb index STATE_SIZE && Z.leb NODE_VALUE_MIN value &&
  Z.leb value (NODE_VALUE_MAX - 2).

Lemma complete_counts d e :
  complete d e = true -> leaf_count e = (2 ^ d)%nat /\ node_count e = (2 ^ d - 1)%nat.
Proof.
  revert e. induction d as [|d IH]; intros [l r v i|w] He; simpl in He; try done.
  apply andb_true_iff in He as [Hl Hr].
  destruct (IH l Hl) as [Hl1 Hl2], (IH r Hr) as [Hr1 Hr2]. simpl.
  pose proof (Nat.pow_nonzero 2 d ltac:(lia)). lia.
Qed.

Lemma evaluate_in_range e state :
  all_decisions (fun _ index => Nat.ltb index (length state)) e = true ->
  exists w, w ∈ leaves e /\ evaluate e state = Some (dot_product w state).
Proof.
  induction e as [l IHl r IHr v i|w]; simpl; intros He.
  - apply andb_true_iff in He as [He Hr]. apply andb_true_iff in He as [Hi Hl].
    apply Nat.ltb_lt, nth_error_Some in Hi.
    destruct (nth_error state i) as [x|]; [|done].
    destruct (Z.leb x v).
    + destruct (IHl Hl) as (w & Hw & Hev). exists w. split; [|done].
      apply elem_of_app. by left.
    + destruct (IHr Hr) as (w & Hw & Hev). exists w. split; [|done].
      apply elem_of_app. by right.
  - exists w. split; [by left|done].
Qed.

Lemma all_decisions_impl (p q : Z -> nat -> bool) e :
  (forall v i, p v i = true -> q v i = true) ->
  all_decisions p e = true -> all_decisions q e = true.
Proof.
  intros Hpq. induction e as [l IHl r IHr v i|w]; simpl; [|done].
  intros He. apply andb_true_iff in He as [He Hr]. apply andb_true_iff in He as [Hi Hl].
  rewrite (Hpq _ _ Hi), IHl, IHr; done.
Qed.

Lemma build_decisions_complete depth :
  forall rng,
    all_decisions decision_in_range (fst (build_evaluations_tree depth rng)) = true /\
    complete depth (fst (build_evaluations_tree depth rng)) = true.
Proof.
  induction depth as [|d IH]; intros rng; simpl.
  - unfold new_random_leaf. by destruct (random_array NODE_VALUE_MIN NODE_VALUE_MAX rng).
  - pose proof (IH rng) as [Hl Hcl]. destruct (build_evaluations_tree d rng) as [l rng1].
    pose proof (IH rng1) as [Hr Hcr]. destruct (build_evaluations_tree d rng1) as [r rng2].
    cbn [fst] in *.
    pose proof (Z.mod_pos_bound (Z.of_nat (rand (S rng2)))
                  (NODE_VALUE_MAX - 1 - NODE_VALUE_MIN)
                  ltac:(unfold NODE_VALUE_MAX, NODE_VALUE_MIN; lia)) as Hb.
    pose proof (Nat.mod_upper_bound (rand rng2) STATE_SIZE
                  ltac:(unfold STATE_SIZE; lia)) as Hi.
    unfold new_random_node. cbn [fst all_decisions complete].
    rewrite Hl, Hr, Hcl, Hcr, !andb_true_r. split; [|done].
    unfold decision_in_range. apply andb_true_iff; split; [apply andb_true_iff; split|].
    + by apply Nat.ltb_lt.
    + apply Z.leb_le. unfold NODE_VALUE_MAX, NODE_VALUE_MIN in *. lia.
    + apply Z.leb_le. unfold NODE_VALUE_MAX, NODE_VALUE_MIN in *. lia.
Qed.

(** X11 ([build_evaluations_tree]).  [build_evaluations_tree(depth)] builds
    a complete binary tree of height [depth]: every leaf lies [depth] nodes
    below the root, there are [2^depth] leaves and [2^depth - 1]
    [EvaluationNode]s. *)
Theorem build_evaluations_tree_complete depth rng :
  let e := fst (build_evaluations_tree depth rng) in
  complete depth e = true /\ leaf_count e = (2 ^ depth)%nat /\
  node_count e = (2 ^ depth - 1)%nat.
Proof.
  destruct (build_decisions_complete depth rng) as [_ Hc].
  split; [done|]. by apply complete_counts.
Qed.

(** X12 ([build_evaluations_tree], [new_random_node]).  Every
    [EvaluationNode] of a built tree compares entry [index < STATE_SIZE] of
    the state with a [value] in [[NODE_VALUE_MIN, NODE_VALUE_MAX - 2]]
    (the range [NODE_VALUE_MIN..NODE_VALUE_MAX - 1] excludes its upper
    end). *)
Theorem build_evaluations_tree_decisions depth rng :
  all_decisions (fun value index =>
      Nat.ltb index STATE_SIZE && Z.leb NODE_VALUE_MIN value &&
      Z.leb value (NODE_VALUE_MAX - 2))
    (fst (build_evaluations_tree depth rng)) = true.
Proof. apply build_decisions_complete. Qed.

(** X13 ([evaluate], [build_evaluations_tree]).  Evaluating a built tree on a
    state of [STATE_SIZE] entries never indexes out of bounds: it returns
    the dot product of the state with the weights of one of the tree's
    leaves. *)
Theorem evaluate_built_tree depth rng state :
  length state = STATE_SIZE ->
  let e := fst (build_evaluations_tree depth rng) in
  exists w, w ∈ leaves e /\ evaluate e state = Some (dot_product w state).
Proof.
  intros Hlen. apply evaluate_in_range.
  eapply all_decisions_impl; [|apply (build_decisions_complete depth rng)].
  intros v i Hvi. unfold decision_in_range in Hvi.
  apply andb_true_iff in Hvi as [Hvi _]. apply andb_true_iff in Hvi as [Hvi _].
  by rewrite Hlen.
Qed.

End EvaluationsTree.

End EvaluationsTree.

(** ** Witnesses of the further properties *)

(** A rollout that always scores 0. *)
Definition zero_rollout (_ : nat) (_ : Z) (_ : gset Z) : Z := 0%Z.

(** [dot_product] as the sum of the products of the entries. *)
Definition sum_of_products (w s : list Z) : Z := fold_right Z.add 0%Z (zip_with Z.mul w s).

(** A [random_array] returning the same weights at every call. *)
Definition constant_array (lo hi : Z) (r : nat) : list Z * nat := ([lo; hi; 0; 1; 2]%Z, S r).

Lemma best_ucb_score_index_in_range_witness :
  children Concrete.two_children_node <> [] /\
  (fst (best_ucb_score_index Concrete.rand 1 true Concrete.two_children_node 7) < 2)%nat /\
  snd (best_ucb_score_index Concrete.rand 1 true Concrete.two_children_node 7) = 8%nat.
Proof.
  destruct (best_ucb_score_index_in_range Concrete.rand 1 true Concrete.two_children_node 7
              ltac:(discriminate)) as [Hlt Hr].
  split; [discriminate|]. split; [exact Hlt|exact Hr].
Defined.

Lemma run_selected_child_witness :
  children Concrete.two_children_node <> [] /\
  let '(i, _) := best_ucb_score_index Concrete.rand 1 false Concrete.two_children_node 0 in
  exists c, children Concrete.two_children_node !! i = Some c.
Proof.
  pose proof (run_selected_child Concrete.mutations Concrete.rollout Concrete.rand 1 (1 / 2)
                false Concrete.two_children_node Concrete.visited0 0 ltac:(discriminate)) as Hr.
  split; [discriminate|].
  destruct (best_ucb_score_index Concrete.rand 1 false Concrete.two_children_node 0)
    as [i rng1].
  destruct Hr as (c & Hc & _). exists c. exact Hc.
Defined.

Lemma search_averages_in_i32_witness :
  (forall r x ps, (I32_MIN <= zero_rollout r x ps <= I32_MAX)%Z) /\
  let '(base_node, _, _) :=
    search_tree Concrete.mutations zero_rollout Concrete.rand 1 (1 / 2) false 0%Z 5 0 in
  forall m, m ∈ tree_nodes base_node ->
    IZR I32_MIN <= average_evaluation m <= IZR I32_MAX.
Proof.
  assert (Hr : forall r x ps, (I32_MIN <= zero_rollout r x ps <= I32_MAX)%Z)
    by (intros; unfold zero_rollout, I32_MIN, I32_MAX; lia).
  split; [exact Hr|].
  exact (proj2 (search_averages_in_i32 Concrete.mutations Concrete.evaluate zero_rollout
                  Concrete.rand 1 (1 / 2) false 0%Z 5 0 Hr)).
Defined.

Lemma evaluate_built_tree_witness :
  length [3; -1; 4; 1; -5]%Z = EvaluationsTree.STATE_SIZE /\
  exists w,
    w ∈ EvaluationsTree.leaves
          (fst (EvaluationsTree.build_evaluations_tree constant_array Concrete.rand 2 0)) /\
    EvaluationsTree.evaluate sum_of_products
      (fst (EvaluationsTree.build_evaluations_tree constant_array Concrete.rand 2 0))
      [3; -1; 4; 1; -5]%Z = Some (sum_of_products w [3; -1; 4; 1; -5]%Z).
Proof.
  split; [reflexivity|].
  exact (EvaluationsTree.evaluate_built_tree sum_of_products constant_array Concrete.rand
           2 0 [3; -1; 4; 1; -5]%Z eq_refl).
Defined.

Lemma ucb_at_least_average_witness :
  0 <= 1 /\ 1%nat <> 0%nat /\ (1 <= 3)%nat /\ 5 <= ucb 5 1 1 3.
Proof.
  split; [lra|]. split; [discriminate|]. split; [lia|].
  exact (proj1 (ucb_at_least_average 5 1 1 3 ltac:(lra) ltac:(discriminate) ltac:(lia))).
Defined.
